(** * pubsubc: provisioning Pub/Sub topics and subscriptions from the environment

    A shallow embedding of [main.go].  Go strings are byte strings and are
    modelled as [string] (one [ascii] per byte); the [Topics] map is a
    [gmap]; the process (standard streams, exit status, the calls made to
    the Pub/Sub client) is threaded explicitly through a small exit monad. *)

From stdpp Require Import base strings list gmap fin_maps pretty.
From Stdlib Require Import ZArith Ascii String.

Local Open Scope string_scope.
Local Open Scope Z_scope.

(** ** The [strings] package, as far as [main.go] uses it *)

Module strings.

(** [strings.Split(s, sep)] for a one-byte separator, which is how the
    program calls it ([","], [":"] and ["+"]).  The result always has at
    least one element: [Split("", sep)] is the list holding [""]. *)
Fixpoint Split (s : string) (sep : ascii) : list string :=
  match s with
  | EmptyString => [EmptyString]
  | String c r =>
      if decide (c = sep) then EmptyString :: Split r sep
      else match Split r sep with
           | [] => [String c EmptyString]
           | x :: xs => String c x :: xs
           end
  end.

(** [strings.Count(s, substr)] for a one-byte [substr]. *)
Fixpoint Count (s : string) (c : ascii) : nat :=
  match s with
  | EmptyString => O
  | String c' r => if decide (c' = c) then Datatypes.S (Count r c) else Count r c
  end.

(** [strings.Replace(s, old, new, n)] for a one-byte [old] and [n >= 0]:
    the first [n] occurrences of [old] are replaced by [new]. *)
Fixpoint Replace (s : string) (old : ascii) (new : string) (n : nat) : string :=
  match n, s with
  | O, _ => s
  | _, EmptyString => EmptyString
  | S n', String c r =>
      if decide (c = old) then new +:+ Replace r old new n'
      else String c (Replace r old new n)
  end.

(** White space as [unicode.IsSpace] has it, on the UTF-8 bytes of the
    string: the six ASCII characters of the fast path of [TrimSpace], and
    the encodings of U+0085, U+00A0, U+1680, U+2000..U+200A, U+2028,
    U+2029, U+202F, U+205F and U+3000.  Any other byte sequence, valid or
    not, decodes to a rune that is not a space. *)
Definition asciiSpace (c : ascii) : bool :=
  let n := nat_of_ascii c in
  ((9 <=? n)%nat && (n <=? 13)%nat) || (n =? 32)%nat.

Definition space2 (c1 c2 : ascii) : bool :=
  (nat_of_ascii c1 =? 194)%nat &&
  ((nat_of_ascii c2 =? 133)%nat || (nat_of_ascii c2 =? 160)%nat).

Definition space3 (c1 c2 c3 : ascii) : bool :=
  let n1 := nat_of_ascii c1 in
  let n2 := nat_of_ascii c2 in
  let n3 := nat_of_ascii c3 in
  ((n1 =? 225) && (n2 =? 154) && (n3 =? 128))%nat
  || ((n1 =? 226) && (n2 =? 128) &&
      (((128 <=? n3) && (n3 <=? 138)) || (n3 =? 168) || (n3 =? 169) || (n3 =? 175)))%nat
  || ((n1 =? 226) && (n2 =? 129) && (n3 =? 159))%nat
  || ((n1 =? 227) && (n2 =? 128) && (n3 =? 128))%nat.

(** Dropping the white-space runes at the front of a byte list.  [sp2] and
    [sp3] recognise the two- and three-byte encodings in the order in
    which the bytes are met. *)
Fixpoint trimFront (sp2 : ascii → ascii → bool) (sp3 : ascii → ascii → ascii → bool)
    (l : list ascii) : list ascii :=
  match l with
  | [] => []
  | c1 :: r1 =>
      if asciiSpace c1 then trimFront sp2 sp3 r1
      else match r1 with
           | [] => l
           | c2 :: r2 =>
               if sp2 c1 c2 then trimFront sp2 sp3 r2
               else match r2 with
                    | [] => l
                    | c3 :: r3 =>
                        if sp3 c1 c2 c3 then trimFront sp2 sp3 r3 else l
                    end
           end
  end.

Definition TrimLeftSpace (l : list ascii) : list ascii :=
  trimFront space2 space3 l.

(** The right end is trimmed on the reversed bytes, where every encoding
    is met last byte first. *)
Definition TrimRightSpace (l : list ascii) : list ascii :=
  rev (trimFront (λ c2 c1, space2 c1 c2) (λ c3 c2 c1, space3 c1 c2 c3) (rev l)).

(** [strings.TrimSpace(s)]. *)
Definition TrimSpace (s : string) : string :=
  string_of_list_ascii (TrimRightSpace (TrimLeftSpace (list_ascii_of_string s))).

End strings.

(** ** Values handed to [fmt] and to the Pub/Sub client *)

(** An operand of a formatting verb. *)
Inductive operand :=
  | OStr (s : string)
  | OInt (n : Z).

(** A non-nil [error].  The program observes an error only through the text
    of [Error()], which it prints, and through the comparison with
    [iterator.Done], which the iterator model below keeps apart. *)
Definition error := string.

Definition nl : string := String "010" EmptyString.
Definition dquote : string := String "034" EmptyString.

Module pubsub.

Record PushConfig := { Endpoint : string }.

(** [pubsub.SubscriptionConfig], with the two fields the program sets; a
    config written without [PushConfig] has the zero [PushConfig], whose
    [Endpoint] is empty.  A [*pubsub.Topic] is named by its id. *)
Record SubscriptionConfig := { Topic : string; Push : PushConfig }.

Definition pull (topic : string) : SubscriptionConfig :=
  {| Topic := topic; Push := {| Endpoint := "" |} |}.

(** A [TopicIterator] or [SubscriptionIterator]: the ids that successive
    [Next()] calls return, then the error that ends the iteration, [None]
    standing for [iterator.Done]. *)
Record Iterator := { items : list string; stop : option error }.

(** The client API as the program calls it, over the state [S] of the
    service.  A client, a topic and a subscription are named by project
    id, topic id and subscription id. *)
Class Client (S : Type) := {
  NewClient : string → S → option error * S;
  Close : string → S → S;
  CreateTopic : string → string → S → option error * S;
  CreateSubscription : string → string → SubscriptionConfig → S → option error * S;
  Topics : string → S → Iterator * S;
  Subscriptions : string → string → S → Iterator * S;
  Config : string → string → S → (error + SubscriptionConfig) * S
}.

End pubsub.

(** The calls the process makes to the client, in the order it makes them. *)
Inductive call :=
  | CallNewClient (projectID : string)
  | CallClose (projectID : string)
  | CallCreateTopic (projectID topicID : string)
  | CallCreateSubscription (projectID id : string) (cfg : pubsub.SubscriptionConfig)
  | CallTopics (projectID : string)
  | CallSubscriptions (projectID topicID : string)
  | CallConfig (projectID id : string).

(** ** The process *)

(** What the process is started with: [os.Args[0]], the flags after
    [flag.Parse()] and the environment. *)
Record process := {
  Args0 : string;
  debug : bool;
  help : bool;
  version : bool;
  environ : gmap string string
}.

(** [os.Getenv]: the empty string for a variable that is not set. *)
Definition Getenv (env : gmap string string) (key : string) : string :=
  default "" (env !! key).

(** What the process has done so far: the state of the service, the calls
    made to it, and what was written to the two standard streams, oldest
    first. *)
Record world (S : Type) := World {
  service : S;
  calls : list call;
  stdout : list string;
  stderr : list string
}.
Arguments World {S}.
Arguments service {S}.
Arguments calls {S}.
Arguments stdout {S}.
Arguments stderr {S}.

(** A computation either returns or ends the process with [os.Exit]. *)
Inductive outcome (A : Type) :=
  | Return (a : A)
  | Exit (code : Z).
Arguments Return {A}.
Arguments Exit {A}.

Definition M (S A : Type) : Type := world S → outcome A * world S.

Definition ret {S A} (a : A) : M S A := λ w, (Return a, w).

Definition bind {S A B} (m : M S A) (k : A → M S B) : M S B :=
  λ w, match m w with
       | (Return a, w') => k a w'
       | (Exit code, w') => (Exit code, w')
       end.

Notation "x <- m ;; k" := (bind m (λ x, k))
  (at level 100, m at next level, right associativity).
Notation "m ;;; k" := (bind m (λ _, k))
  (at level 100, right associativity).

(** The exit status of a process whose [main] ended with [o]. *)
Definition status {A} (o : outcome A) : Z :=
  match o with
  | Return _ => 0
  | Exit code => code
  end.

(** [for _, x := range l { body }]. *)
Fixpoint for_range {S A} (l : list A) (body : A → M S unit) : M S unit :=
  match l with
  | [] => ret tt
  | x :: l' => body x ;;; for_range l' body
  end.

(** The same loop where the body may [return err]. *)
Fixpoint for_range_err {S A} (l : list A) (body : A → M S (option error))
    : M S (option error) :=
  match l with
  | [] => ret None
  | x :: l' =>
      err <- body x ;;
      match err with
      | Some e => ret (Some e)
      | None => for_range_err l' body
      end
  end.

(** ** The program *)

Section program.

Context {S : Type} `{!pubsub.Client S}.

(** [fmt.Sprintf]: the text a format and its operands render to.  The
    verbs of package [fmt] are not modelled; every [Printf], [Fprintf],
    [Errorf] and [Sprintf] of the program is written through it. *)
Variable Sprintf : string → list operand → string.

(** The text [flag.PrintDefaults()] writes to standard error, the build
    variables and [runtime.Version()]. *)
Variable flagDefaults : string.
Variable CommitHash Revision runtimeVersion : string.

(** The order in which [range] walks the [Topics] map of project [i]; Go
    leaves it unspecified. *)
Variable rangeOrder : Z → gmap string (list string) → list (string * list string).

Variable proc : process.

Definition Printf (format : string) (params : list operand) : M S unit :=
  λ w, (Return tt,
        World w.(service) w.(calls) (w.(stdout) ++ [Sprintf format params]) w.(stderr)).

Definition Println (s : string) : M S unit :=
  λ w, (Return tt, World w.(service) w.(calls) (w.(stdout) ++ [s +:+ nl]) w.(stderr)).

Definition Fprintf_Stderr (format : string) (params : list operand) : M S unit :=
  λ w, (Return tt,
        World w.(service) w.(calls) w.(stdout) (w.(stderr) ++ [Sprintf format params])).

Definition PrintDefaults : M S unit :=
  λ w, (Return tt, World w.(service) w.(calls) w.(stdout) (w.(stderr) ++ [flagDefaults])).

Definition os_Exit {A} (code : Z) : M S A := λ w, (Exit code, w).

(** A call to the client: the service answers and moves to its next
    state, and the call is recorded. *)
Definition invoke {A} (c : call) (op : S → A * S) : M S A :=
  λ w, let '(a, σ) := op w.(service) in
       (Return a, World σ (w.(calls) ++ [c]) w.(stdout) w.(stderr)).

Definition versionString : string :=
  Sprintf "pubsubc - build %s (%s) running on %s"
    [OStr Revision; OStr CommitHash; OStr runtimeVersion].

(** [debugf] prints debugging information. *)
Definition debugf (format : string) (params : list operand) : M S unit :=
  if proc.(debug) then Printf (format +:+ nl) params else ret tt.

(** [fatalf] prints an error to stderr and exits. *)
Definition fatalf {A} (format : string) (params : list operand) : M S A :=
  Fprintf_Stderr (proc.(Args0) +:+ ": " +:+ format +:+ nl) params ;;;
  os_Exit 1.

(** The loop of [listSubscriptions] and [listTopics] over an iterator:
    [acc] is the slice appended to so far. *)
Fixpoint collect (fetched : list string) (stop : option error) (acc : list string)
    : error + list string :=
  match fetched with
  | x :: rest => collect rest stop (acc ++ [x])
  | [] =>
      match stop with
      | None => inr acc
      | Some err => inl (Sprintf "Next: %w" [OStr err])
      end
  end.

Definition listSubscriptions (client topicID : string) : M S (error + list string) :=
  it <- invoke (CallSubscriptions client topicID) (pubsub.Subscriptions client topicID) ;;
  ret (collect it.(pubsub.items) it.(pubsub.stop) []).

Definition listTopics (client : string) : M S (error + list string) :=
  it <- invoke (CallTopics client) (pubsub.Topics client) ;;
  ret (collect it.(pubsub.items) it.(pubsub.stop) []).

(** The body of the inner loop of [displayResult] (lines 71-75). *)
Definition displaySubscription (projectId sub : string) : M S unit :=
  config <- invoke (CallConfig projectId sub) (pubsub.Config projectId sub) ;;
  match config with
  | inl err => fatalf "Failed to get subscription config %s" [OStr err]
  | inr config =>
      Printf ("  Subscription: %s - Endpoint: %s" +:+ nl)
        [OStr sub; OStr config.(pubsub.Push).(pubsub.Endpoint)]
  end.

(** The two nested loops over the same [subscriptions] (lines 69-79). *)
Definition displaySubscriptions (projectId : string) (subscriptions : list string)
    : M S unit :=
  for_range subscriptions (λ sub,
    for_range subscriptions (λ sub, displaySubscription projectId sub) ;;;
    debugf ("  Subscription: %s" +:+ nl) [OStr sub]).

(** The body of the loop over the topics (lines 62-79). *)
Definition displayTopic (projectId topic : string) : M S unit :=
  subscriptions <- listSubscriptions projectId topic ;;
  match subscriptions with
  | inl err => fatalf "Failed to list subscriptions: %s" [OStr err]
  | inr subscriptions =>
      debugf ("Topic: %s" +:+ nl) [OStr topic] ;;;
      displaySubscriptions projectId subscriptions
  end.

(** [displayResult]; the deferred [client.Close()] runs when the function
    returns, not when [fatalf] exits. *)
Definition displayResult (projectId : string) : M S unit :=
  err <- invoke (CallNewClient projectId) (pubsub.NewClient projectId) ;;
  match err with
  | Some _ => ret tt
  | None =>
      topics <- listTopics projectId ;;
      match topics with
      | inl err => fatalf "Failed to list topics: %s" [OStr err]
      | inr topics =>
          for_range topics (displayTopic projectId) ;;;
          invoke (CallClose projectId) (λ σ, (tt, pubsub.Close projectId σ))
      end
  end.

(** What [create] makes of one subscription token (lines 137-144): the
    subscription id and the push endpoint. *)
Definition decodeSubscription (subscription : string) : string * string :=
  let subscriptionParts := strings.Split subscription "+" in
  let subscriptionID := strings.TrimSpace (nth 0 subscriptionParts "") in
  let pushEndpoint :=
    if decide (1 < List.length subscriptionParts)%nat
    then strings.Replace (strings.TrimSpace (nth 1 subscriptionParts "")) "|" ":" 1
    else "" in
  (subscriptionID, pushEndpoint).

(** The body of the loop over the subscriptions of a topic (lines 137-163). *)
Definition createSubscription (projectID topicID subscription : string)
    : M S (option error) :=
  let '(subscriptionID, pushEndpoint) := decodeSubscription subscription in
  if decide (pushEndpoint ≠ "") then
    let endPointURL := "http://" +:+ pushEndpoint in
    debugf "    Creating subscription %q - endpoint %q"
      [OStr subscriptionID; OStr endPointURL] ;;;
    let pushConfig := {| pubsub.Endpoint := endPointURL |} in
    let cfg := {| pubsub.Topic := topicID; pubsub.Push := pushConfig |} in
    err <- invoke (CallCreateSubscription projectID subscriptionID cfg)
             (pubsub.CreateSubscription projectID subscriptionID cfg) ;;
    match err with
    | Some err =>
        ret (Some (Sprintf
          "Unable to create push subscription %q on topic %q for project %q using push endpoint %q: %s"
          [OStr subscriptionID; OStr topicID; OStr projectID; OStr pushEndpoint; OStr err]))
    | None => ret None
    end
  else
    debugf "    Creating subscription %q" [OStr subscriptionID] ;;;
    let cfg := pubsub.pull topicID in
    err <- invoke (CallCreateSubscription projectID subscriptionID cfg)
             (pubsub.CreateSubscription projectID subscriptionID cfg) ;;
    match err with
    | Some err =>
        ret (Some (Sprintf
          "Unable to create subscription %q on topic %q for project %q: %s"
          [OStr subscriptionID; OStr topicID; OStr projectID; OStr err]))
    | None => ret None
    end.

(** The body of the loop over the map (lines 130-164). *)
Definition createTopic (projectID : string) (entry : string * list string)
    : M S (option error) :=
  let '(topicID, subscriptions) := entry in
  debugf "  Creating topic %q" [OStr topicID] ;;;
  err <- invoke (CallCreateTopic projectID topicID) (pubsub.CreateTopic projectID topicID) ;;
  match err with
  | Some err =>
      ret (Some (Sprintf "Unable to create topic %q for project %q: %s"
                   [OStr topicID; OStr projectID; OStr err]))
  | None => for_range_err subscriptions (createSubscription projectID topicID)
  end.

(** [create] makes a connection to the PubSub service and creates topics
    and subscriptions for the specified project id.  [topics] is the map
    in the order [range] walks it; the deferred [client.Close()] runs on
    every return after the client was made. *)
Definition create (projectID : string) (topics : list (string * list string))
    : M S (option error) :=
  err <- invoke (CallNewClient projectID) (pubsub.NewClient projectID) ;;
  match err with
  | Some err =>
      ret (Some (Sprintf "Unable to create client to project %q: %s"
                   [OStr projectID; OStr err]))
  | None =>
      debugf "Client connected with project ID %q" [OStr projectID] ;;;
      err <- for_range_err topics (createTopic projectID) ;;
      invoke (CallClose projectID) (λ σ, (tt, pubsub.Close projectID σ)) ;;;
      ret err
  end.

(** [flag.Usage], as [main] sets it. *)
Definition Usage : M S unit :=
  Printf ("Usage: env PUBSUB_PROJECT1=" +:+ dquote
          +:+ "project1,topic1,topic2:subscription1,topic3:subscription2+enpoint1"
          +:+ dquote +:+ " %s" +:+ nl) [OStr proc.(Args0)] ;;;
  PrintDefaults.

(** Separating the topic id from the subscription ids (lines 209-213). *)
Definition parseTopics (parts : list string) : gmap string (list string) :=
  foldl (λ topics part,
           let topicParts := strings.Split part ":" in
           <[nth 0 topicParts "" := drop 1 topicParts]> topics)
        ∅ (drop 1 parts).

Definition currentEnv (i : Z) : string := Sprintf "PUBSUB_PROJECT%d" [OInt i].

(** One turn of the loop of [main] for a variable that is set (lines
    202-220). *)
Definition project (i : Z) (env : string) : M S unit :=
  let parts := strings.Split env "," in
  (if decide (List.length parts < 2)%nat
   then fatalf "%s: Expected at least 1 topic to be defined" [OStr (currentEnv i)]
   else ret tt) ;;;
  let topics := parseTopics parts in
  err <- create (nth 0 parts "") (rangeOrder i topics) ;;
  match err with
  | Some err => fatalf err []
  | None => ret tt
  end ;;;
  displayResult (nth 0 parts "").

(** The loop over the numbered variables (lines 188-221), from index [i].
    [fuel] bounds the number of turns; [None] is a loop that has not
    ended within it.  The counter is an unbounded integer: an [int] does
    not overflow before the environment runs out of variables. *)
Fixpoint loop (fuel : nat) (i : Z) (w : world S) : option (outcome unit * world S) :=
  match fuel with
  | O => None
  | Datatypes.S fuel' =>
      let env := Getenv proc.(environ) (currentEnv i) in
      if decide (env = "") then
        if decide (i = 1) then Some ((Usage ;;; os_Exit 1) w)
        else Some (Return tt, w)
      else
        match project i env w with
        | (Return _, w') => loop fuel' (i + 1) w'
        | (Exit code, w') => Some (Exit code, w')
        end
  end.

Definition main (fuel : nat) (w : world S) : option (outcome unit * world S) :=
  if proc.(help) then Some (Usage w)
  else if proc.(version) then Some (Println versionString w)
  else loop fuel 1 w.

End program.

(** ** A service and a renderer to run the program on *)

(** An in-memory service, for running the program on concrete inputs: the
    topics and subscriptions it holds, oldest first, the number of requests
    it has answered, and the numbers of the requests it answers with an
    error (counted from [0]; [Close] is no request). *)
Module emulator.

Record state := State {
  topics : list (string * string);
  subscriptions : list (string * string * pubsub.SubscriptionConfig);
  clock : nat;
  down : list nat
}.

Definition tick (σ : state) : state :=
  State σ.(topics) σ.(subscriptions) (Datatypes.S σ.(clock)) σ.(down).

Definition failing (σ : state) : bool := bool_decide (σ.(clock) ∈ σ.(down)).

Definition hasTopic (σ : state) (p t : string) : bool :=
  existsb (λ e, String.eqb e.1 p && String.eqb e.2 t) σ.(topics).

Definition findSubscription (σ : state) (p id : string)
    : option pubsub.SubscriptionConfig :=
  snd <$> List.find (λ e, String.eqb e.1.1 p && String.eqb e.1.2 id) σ.(subscriptions).

Definition answer {A} (σ : state) (failed : A) (ok : A * state) : A * state :=
  if failing σ then (failed, tick σ) else (ok.1, tick ok.2).

#[global] Instance client : pubsub.Client state := {|
  pubsub.NewClient p σ := answer σ (Some "unavailable") (None, σ);
  pubsub.Close p σ := σ;
  pubsub.CreateTopic p t σ :=
    answer σ (Some "unavailable")
      (if hasTopic σ p t then (Some "already exists", σ)
       else (None, State (σ.(topics) ++ [(p, t)]) σ.(subscriptions) σ.(clock) σ.(down)));
  pubsub.CreateSubscription p id cfg σ :=
    answer σ (Some "unavailable")
      (match findSubscription σ p id with
       | Some _ => (Some "already exists", σ)
       | None =>
           if hasTopic σ p cfg.(pubsub.Topic)
           then (None, State σ.(topics) (σ.(subscriptions) ++ [(p, id, cfg)])
                         σ.(clock) σ.(down))
           else (Some "not found", σ)
       end);
  pubsub.Topics p σ :=
    answer σ {| pubsub.items := []; pubsub.stop := Some "unavailable" |}
      ({| pubsub.items := snd <$> filter (λ e, e.1 = p) σ.(topics);
          pubsub.stop := None |}, σ);
  pubsub.Subscriptions p t σ :=
    answer σ {| pubsub.items := []; pubsub.stop := Some "unavailable" |}
      ({| pubsub.items :=
            (λ e, e.1.2) <$>
              filter (λ e, e.1.1 = p ∧ e.2.(pubsub.Topic) = t) σ.(subscriptions);
          pubsub.stop := None |}, σ);
  pubsub.Config p id σ :=
    answer σ (inl "unavailable")
      (match findSubscription σ p id with
       | Some cfg => inr cfg
       | None => inl "not found"
       end, σ)
|}.

(** An empty service that answers every request but those numbered in
    [down]. *)
Definition fresh (down : list nat) : state := State [] [] 0 down.

End emulator.

(** A renderer for the verbs the program uses, applied to operands that fit
    them: [%s], [%v] and [%w] write the operand, [%d] its decimal digits,
    [%q] the string between double quotes with its double quotes and
    backslashes escaped (which is what Go writes for a string of printable
    ASCII), and [%%] a per cent sign. *)
Module render.

(** The text of a string between the quotes of [%q]: a double quote and a
    backslash get a backslash in front. *)
Fixpoint escape (s : string) : string :=
  match s with
  | EmptyString => EmptyString
  | String c r =>
      if decide (c = "034"%char ∨ c = "092"%char)
      then String "092" (String c (escape r))
      else String c (escape r)
  end.

Definition operandText (verb : ascii) (o : operand) : string :=
  match o with
  | OInt n => pretty n
  | OStr s => if decide (verb = "q"%char) then dquote +:+ escape s +:+ dquote else s
  end.

Fixpoint Sprintf (format : string) (params : list operand) : string :=
  match format with
  | String "%" (String "%" rest) => String "%" (Sprintf rest params)
  | String "%" (String verb rest) =>
      match params with
      | o :: params' => operandText verb o +:+ Sprintf rest params'
      | [] => "%!" +:+ String verb "(MISSING)" +:+ Sprintf rest []
      end
  | String c rest => String c (Sprintf rest params)
  | EmptyString => EmptyString
  end.

End render.

(** The world a process starts in. *)
Definition start {S} (σ : S) : world S := World σ [] [] [].

(** A process named [pubsubc], started without [-help] and [-version]. *)
Definition pubsubc (env : list (string * string)) (dbg : bool) : process :=
  {| Args0 := "pubsubc"; debug := dbg; help := false; version := false;
     environ := list_to_map env |}.

(** Running [main] against a fresh emulator, with the map walked in the
    order of [map_to_list]. *)
Definition run (env : list (string * string)) (dbg : bool) (down : list nat)
    : option (outcome unit * world emulator.state) :=
  main render.Sprintf "" "<not set>" "<not set>" "go" (λ _ m, map_to_list m)
    (pubsubc env dbg) 10 (start (emulator.fresh down)).

(** ** The creation requests of a project, as a plan

    [create] walks the map and asks the service for one thing at a time.
    The definitions below describe that walk without the process around
    it; the theorems relate [create] to them. *)

Inductive request :=
  | ReqTopic (topicID : string)
  | ReqSubscription (topicID subscription : string).

(** The topic name and the subscription tokens of a topic definition. *)
Definition topicName (part : string) : string := nth 0 (strings.Split part ":") "".
Definition topicTokens (part : string) : list string := drop 1 (strings.Split part ":").

(** The requests for the map entries, in the order of the walk. *)
Definition requests (topics : list (string * list string)) : list request :=
  List.concat ((λ entry, ReqTopic entry.1 :: (ReqSubscription entry.1 <$> entry.2)) <$> topics).

(** The config of the subscription a token asks for. *)
Definition subscriptionConfig (topicID subscription : string) : pubsub.SubscriptionConfig :=
  let pushEndpoint := (decodeSubscription subscription).2 in
  if decide (pushEndpoint ≠ "")
  then {| pubsub.Topic := topicID;
          pubsub.Push := {| pubsub.Endpoint := "http://" +:+ pushEndpoint |} |}
  else pubsub.pull topicID.

(** The call that carries a request. *)
Definition callOf (projectID : string) (r : request) : call :=
  match r with
  | ReqTopic topicID => CallCreateTopic projectID topicID
  | ReqSubscription topicID subscription =>
      CallCreateSubscription projectID (decodeSubscription subscription).1
        (subscriptionConfig topicID subscription)
  end.

Section plan.

Context {S : Type} `{!pubsub.Client S}.
Variable Sprintf : string → list operand → string.

(** The answer of the service to a request. *)
Definition answerOf (projectID : string) (r : request) (σ : S) : option error * S :=
  match r with
  | ReqTopic topicID => pubsub.CreateTopic projectID topicID σ
  | ReqSubscription topicID subscription =>
      pubsub.CreateSubscription projectID (decodeSubscription subscription).1
        (subscriptionConfig topicID subscription) σ
  end.

(** The error [create] returns when the service answers [r] with [err]. *)
Definition failureOf (projectID : string) (r : request) (err : error) : error :=
  match r with
  | ReqTopic topicID =>
      Sprintf "Unable to create topic %q for project %q: %s"
        [OStr topicID; OStr projectID; OStr err]
  | ReqSubscription topicID subscription =>
      let '(subscriptionID, pushEndpoint) := decodeSubscription subscription in
      if decide (pushEndpoint ≠ "") then
        Sprintf
          "Unable to create push subscription %q on topic %q for project %q using push endpoint %q: %s"
          [OStr subscriptionID; OStr topicID; OStr projectID; OStr pushEndpoint; OStr err]
      else
        Sprintf "Unable to create subscription %q on topic %q for project %q: %s"
          [OStr subscriptionID; OStr topicID; OStr projectID; OStr err]
  end.

(** Sending the requests one after the other up to the first that the
    service refuses: the calls made, the error if any, and the state the
    service is left in. *)
Fixpoint serve (projectID : string) (rs : list request) (σ : S)
    : list call * option error * S :=
  match rs with
  | [] => ([], None, σ)
  | r :: rs' =>
      match answerOf projectID r σ with
      | (Some err, σ') => ([callOf projectID r], Some (failureOf projectID r err), σ')
      | (None, σ') =>
          let '(cs, res, σ'') := serve projectID rs' σ' in
          (callOf projectID r :: cs, res, σ'')
      end
  end.

End plan.

(** ** Notions the properties are stated with *)

(** [w'] is [w] after the calls [cs] that left the service in [σ], with
    nothing written to standard error. *)
Definition called {S} (w w' : world S) (cs : list call) (σ : S) : Prop :=
  w'.(service) = σ ∧ w'.(calls) = (w.(calls) ++ cs)%list ∧ w'.(stderr) = w.(stderr).

(** A computation that leaves standard error alone when it returns, and
    that exits only with status [1] and one more text on standard error. *)
Definition fatal_only {S A} (m : M S A) : Prop :=
  ∀ w, match m w with
       | (Return _, w') => w'.(stderr) = w.(stderr)
       | (Exit code, w') =>
           code = 1 ∧ ∃ msg, w'.(stderr) = (w.(stderr) ++ [msg])%list
       end.

(** The line [displayResult] prints for a subscription, and the texts that
    are such a line of [sub] for some endpoint. *)
Definition subscriptionLine (Sprintf : string → list operand → string)
    (sub endpoint : string) : string :=
  Sprintf ("  Subscription: %s - Endpoint: %s" +:+ nl) [OStr sub; OStr endpoint].

Definition lineOf (Sprintf : string → list operand → string) (sub line : string) : Prop :=
  ∃ endpoint, line = subscriptionLine Sprintf sub endpoint.

(** The indices [i], [i + 1], ... of [k] turns of the loop of [main]. *)
Fixpoint countFrom (i : Z) (k : nat) : list Z :=
  match k with
  | O => []
  | Datatypes.S k' => i :: countFrom (i + 1) k'
  end.

(** The process [proc] started in the environment [env]. *)
Definition withEnviron (proc : process) (env : gmap string string) : process :=
  {| Args0 := proc.(Args0); debug := proc.(debug); help := proc.(help);
     version := proc.(version); environ := env |}.

(** The process [proc] with the [-debug] flag set to [b]. *)
Definition withDebug (proc : process) (b : bool) : process :=
  {| Args0 := proc.(Args0); debug := b; help := proc.(help);
     version := proc.(version); environ := proc.(environ) |}.

(** Two worlds that differ at most in what was written to standard output. *)
Definition same_but_stdout {S} (w1 w2 : world S) : Prop :=
  w1.(service) = w2.(service) ∧ w1.(calls) = w2.(calls) ∧ w1.(stderr) = w2.(stderr).

(** Two computations that, from such worlds, end alike in such worlds. *)
Definition agree {S A} (m1 m2 : M S A) : Prop :=
  ∀ w1 w2, same_but_stdout w1 w2 →
    (m1 w1).1 = (m2 w2).1 ∧ same_but_stdout (m1 w1).2 (m2 w2).2.

(** The calls that create something in project [p], and the calls that read
    from it. *)
Definition createCall (p : string) (c : call) : Prop :=
  match c with
  | CallCreateTopic p' _ | CallCreateSubscription p' _ _ => p' = p
  | _ => False
  end.

Definition reportCall (p : string) (c : call) : Prop :=
  match c with
  | CallTopics p' | CallSubscriptions p' _ | CallConfig p' _ => p' = p
  | _ => False
  end.

(** The project a call is for. *)
Definition projectOf (c : call) : string :=
  match c with
  | CallNewClient p | CallClose p | CallCreateTopic p _ | CallCreateSubscription p _ _
  | CallTopics p | CallSubscriptions p _ | CallConfig p _ => p
  end.

(** A computation whose calls all read from project [p]. *)
Definition reports {S A} (p : string) (m : M S A) : Prop :=
  ∀ w, ∃ cs, Forall (reportCall p) cs ∧ (m w).2.(calls) = (w.(calls) ++ cs)%list.

(** A computation that always returns, leaves standard error alone and, when
    [dbg] is off, standard output too. *)
Definition quiet {S A} (dbg : bool) (m : M S A) : Prop :=
  ∀ w, ∃ a w', m w = (Return a, w') ∧ w'.(stderr) = w.(stderr) ∧
               (dbg = false → w'.(stdout) = w.(stdout)).

(** A string of ASCII white space only. *)
Fixpoint asciiSpaces (s : string) : bool :=
  match s with
  | EmptyString => true
  | String c r => strings.asciiSpace c && asciiSpaces r
  end.

(** An ASCII byte that is not white space, and the strings that are empty
    or have such bytes as their first and their last. *)
Definition plainByte (c : ascii) : bool :=
  negb (strings.asciiSpace c) && (nat_of_ascii c <? 128)%nat.

Definition plainEnds (s : string) : bool :=
  let l := list_ascii_of_string s in
  match l, rev l with
  | c :: _, d :: _ => plainByte c && plainByte d
  | _, _ => true
  end.

(** Whether the bytes [l] start with a white-space rune, for the recognisers
    [sp2] and [sp3] of [strings.trimFront]. *)
Definition headSpace (sp2 : ascii → ascii → bool) (sp3 : ascii → ascii → ascii → bool)
    (l : list ascii) : bool :=
  match l with
  | [] => false
  | c1 :: r1 =>
      strings.asciiSpace c1 ||
      match r1 with
      | [] => false
      | c2 :: r2 =>
          sp2 c1 c2 ||
          match r2 with
          | [] => false
          | c3 :: _ => sp3 c1 c2 c3
          end
      end
  end.

(** * Properties *)

(** ** Splitting and replacing *)

Section strings_facts.

Import strings.

Lemma Split_not_nil s sep : Split s sep ≠ [].
Proof.
  destruct s as [|c r]; simpl; [done|].
  case_decide; [done|]. by destruct (Split r sep).
Qed.

Lemma Split_length s sep : List.length (Split s sep) = Datatypes.S (Count s sep).
Proof.
  induction s as [|c r IH]; simpl; [done|].
  case_decide; simpl; [by rewrite IH|].
  destruct (Split r sep) eqn:E; simpl in *; [done|]. done.
Qed.

(** A string without the separator is the only part. *)
Lemma Split_none s sep : Count s sep = O → Split s sep = [s].
Proof.
  induction s as [|c r IH]; simpl; [done|].
  case_decide; [done|]. intros Hc. by rewrite IH.
Qed.

(** The first part ends at the first separator. *)
Lemma Split_app a b sep :
  Count a sep = O → Split (a +:+ String sep b) sep = a :: Split b sep.
Proof.
  induction a as [|c r IH]; simpl.
  - intros _. by rewrite decide_True.
  - case_decide; [done|]. intros Hc. by rewrite IH.
Qed.

Lemma append_assoc a b c : (a +:+ b) +:+ c = a +:+ b +:+ c.
Proof.
  induction a as [|x r IH]; [done|].
  change (String x ((r +:+ b) +:+ c) = String x (r +:+ b +:+ c)). by rewrite IH.
Qed.

Lemma Count_app a b c : Count (a +:+ b) c = (Count a c + Count b c)%nat.
Proof.
  induction a as [|c' r IH]; simpl; [done|].
  case_decide; simpl; by rewrite IH.
Qed.

(** With [n = 1] only the first occurrence is replaced. *)
Lemma Replace_first a b old new :
  Count a old = O → Replace (a +:+ String old b) old new 1 = a +:+ new +:+ b.
Proof.
  induction a as [|c r IH]; simpl.
  - intros _. rewrite decide_True by done. by destruct b.
  - case_decide; [done|]. intros Hc. by rewrite IH.
Qed.

Lemma Replace_none s old new n : Count s old = O → Replace s old new n = s.
Proof.
  revert n. induction s as [|c r IH]; intros [|n]; simpl; try done.
  case_decide; [done|]. intros Hc. by rewrite IH.
Qed.

End strings_facts.

(** ** The Config Parser *)

Lemma parseTopics_cons p defs :
  parseTopics (p :: defs) =
  foldl (λ topics part,
           <[nth 0 (strings.Split part ":") "" := drop 1 (strings.Split part ":")]> topics)
        ∅ defs.
Proof. reflexivity. Qed.

(** A topic definition names the topic before its first [':'] and lists the
    subscription tokens after it. *)
Lemma topic_definition t toks :
  strings.Count t ":" = O →
  strings.Split (t +:+ String ":" toks) ":" = t :: strings.Split toks ":".
Proof. apply Split_app. Qed.

(** C1: the value is split on [','], the first part is the project id and
    each further part is a topic definition, split on [':'] into the topic
    name and its list of subscription tokens, which is empty for a
    definition without [':'].  So ["p,t1:s1,t2"] gives project id [p] and
    the map that sends [t1] to [[s1]] and [t2] to [[]]. *)
Theorem config_parser :
  (∀ p defs : string,
     strings.Count p "," = O →
     let parts := strings.Split (p +:+ String "," defs) "," in
     nth 0 parts "" = p ∧ drop 1 parts = strings.Split defs ",") ∧
  (∀ (p : string) (def : string) (defs : list string) t toks,
     strings.Count t ":" = O →
     (def = t ∧ toks = [] ∨ ∃ rest, def = t +:+ String ":" rest ∧ toks = strings.Split rest ":") →
     parseTopics (p :: defs ++ [def]) = <[t := toks]> (parseTopics (p :: defs))) ∧
  (∀ p t1 s1 t2 : string,
     strings.Count p "," = O → strings.Count t1 "," = O →
     strings.Count s1 "," = O → strings.Count t2 "," = O →
     strings.Count t1 ":" = O → strings.Count s1 ":" = O → strings.Count t2 ":" = O →
     let parts :=
       strings.Split (p +:+ "," +:+ t1 +:+ ":" +:+ s1 +:+ "," +:+ t2) "," in
     ¬ (List.length parts < 2)%nat ∧
     nth 0 parts "" = p ∧
     parseTopics parts = <[t2 := []]> (<[t1 := [s1]]> ∅) ∧
     (t1 ≠ t2 → ∀ t, parseTopics parts !! t =
        if decide (t = t1) then Some [s1] else if decide (t = t2) then Some [] else None)).
Proof.
  split; [|split].
  - intros p defs Hp parts. subst parts. by rewrite Split_app.
  - intros p def defs t toks Ht Hdef.
    rewrite !parseTopics_cons, foldl_app. simpl.
    destruct Hdef as [[-> ->]|(rest & -> & ->)].
    + by rewrite Split_none.
    + by rewrite Split_app.
  - intros p t1 s1 t2 Hp Ht1 Hs1 Ht2 Ht1' Hs1' Ht2' parts.
    assert (Hparts : parts = [p; t1 +:+ ":" +:+ s1; t2]).
    { subst parts.
      change (p +:+ "," +:+ t1 +:+ ":" +:+ s1 +:+ "," +:+ t2)
        with (p +:+ String "," (t1 +:+ String ":" s1 +:+ String "," t2)).
      rewrite Split_app by done.
      rewrite <- (append_assoc t1 (String ":" s1) (String "," t2)).
      rewrite Split_app, Split_none; [done..|].
      rewrite Count_app. simpl. rewrite Ht1, Hs1. done. }
    rewrite Hparts. simpl. split; [lia|]. split; [done|].
    assert (Hmap : parseTopics [p; t1 +:+ ":" +:+ s1; t2] = <[t2 := []]> (<[t1 := [s1]]> ∅)).
    { unfold parseTopics. simpl.
      change (t1 +:+ ":" +:+ s1) with (t1 +:+ String ":" s1).
      rewrite Split_app by done. rewrite (Split_none s1), (Split_none t2) by done.
      done. }
    split; [done|]. intros Hne t. rewrite Hmap.
    rewrite lookup_insert. case_decide; subst.
    + rewrite decide_False by done. by rewrite decide_True.
    + rewrite lookup_insert. case_decide; subst.
      * by rewrite decide_True.
      * rewrite decide_False by done. rewrite decide_False by done. apply lookup_empty.
Qed.

Lemma config_parser_witness :
  let parts := strings.Split "p,t1:s1,t2" "," in
  nth 0 parts "" = "p" ∧
  parseTopics parts = <["t2" := []]> (<["t1" := ["s1"]]> ∅).
Proof.
  destruct config_parser as (_ & _ & H).
  destruct (H "p" "t1" "s1" "t2") as (_ & H1 & H2 & _); try reflexivity.
  split; [exact H1 | exact H2].
Defined.

(** ** The Subscription Spec Decoder *)

Lemma decodeSubscription_pull tok :
  strings.Count tok "+" = O → decodeSubscription tok = (strings.TrimSpace tok, "").
Proof.
  intros Hc. unfold decodeSubscription. by rewrite Split_none.
Qed.

Lemma decodeSubscription_push a b :
  strings.Count a "+" = O →
  decodeSubscription (a +:+ String "+" b) =
  (strings.TrimSpace a,
   strings.Replace (strings.TrimSpace (nth 0 (strings.Split b "+") "")) "|" ":" 1).
Proof.
  intros Hc. unfold decodeSubscription. rewrite Split_app by done.
  case_decide as Hlen; [done|].
  exfalso. apply Hlen. simpl. rewrite Split_length. lia.
Qed.

(** ** The Provisioner *)

Section create_facts.

Context {S : Type} `{!pubsub.Client S}.
Variable Sprintf : string → list operand → string.
Variable proc : process.

Local Abbreviation called := (@called S).

Lemma called_refl (w : world S) : called w w [] w.(service).
Proof. unfold called. by rewrite app_nil_r. Qed.

Lemma called_trans (w1 w2 w3 : world S) cs1 cs2 σ2 σ3 :
  called w1 w2 cs1 σ2 → called w2 w3 cs2 σ3 → called w1 w3 (cs1 ++ cs2)%list σ3.
Proof.
  intros (_ & Hc1 & He1) (Hs2 & Hc2 & He2). unfold called.
  rewrite Hc2, Hc1, He2, He1, app_assoc. done.
Qed.

Lemma bind_Return {A B} (m : M S A) (k : A → M S B) w a w' :
  m w = (Return a, w') → bind m k w = k a w'.
Proof. intros Hm. unfold bind. by rewrite Hm. Qed.

Lemma bind_Exit {A B} (m : M S A) (k : A → M S B) w code w' :
  m w = (Exit code, w') → bind m k w = (Exit code, w').
Proof. intros Hm. unfold bind. by rewrite Hm. Qed.

Lemma debugf_called format params w :
  ∃ w', debugf Sprintf proc format params w = (Return tt, w') ∧
        called w w' [] w.(service).
Proof.
  unfold debugf. destruct proc.(debug).
  - eexists. split; [reflexivity|]. unfold called. simpl. by rewrite app_nil_r.
  - exists w. split; [done|]. apply called_refl.
Qed.

Lemma invoke_called {A} c (op : S → A * S) w :
  ∃ w', invoke c op w = (Return (op w.(service)).1, w') ∧
        called w w' [c] (op w.(service)).2.
Proof.
  unfold invoke. destruct (op w.(service)) as [a σ]. eexists. split; [reflexivity|].
  by unfold called.
Qed.

(** One subscription token: exactly one [CreateSubscription] call. *)
Lemma createSubscription_called projectID topicID subscription w :
  let r := ReqSubscription topicID subscription in
  ∃ w', createSubscription Sprintf proc projectID topicID subscription w =
          (Return (failureOf Sprintf projectID r <$> (answerOf projectID r w.(service)).1), w') ∧
        called w w' [callOf projectID r] (answerOf projectID r w.(service)).2.
Proof.
  intros r. subst r. unfold createSubscription, failureOf, answerOf, callOf, subscriptionConfig.
  destruct (decodeSubscription subscription) as [subscriptionID pushEndpoint] eqn:Hd.
  simpl. case_decide as Hpush.
  - destruct (debugf_called "    Creating subscription %q - endpoint %q"
                [OStr subscriptionID; OStr ("http://" +:+ pushEndpoint)] w)
      as (w1 & Hw1 & Hc1).
    rewrite (bind_Return _ _ _ _ _ Hw1).
    match goal with |- context [invoke ?c ?op] =>
      destruct (invoke_called c op w1) as (w2 & Hw2 & Hc2) end.
    rewrite (bind_Return _ _ _ _ _ Hw2).
    destruct Hc1 as (Hs1 & Hcs1 & He1). rewrite Hs1 in Hw2, Hc2 |- *.
    exists w2. split.
    + by destruct (pubsub.CreateSubscription _ _ _ _) as [[e|] σ].
    + destruct Hc2 as (Hs2 & Hcs2 & He2). unfold called.
      rewrite Hs2, Hcs2, Hcs1, He2, He1, app_nil_r. done.
  - destruct (debugf_called "    Creating subscription %q" [OStr subscriptionID] w)
      as (w1 & Hw1 & Hc1).
    rewrite (bind_Return _ _ _ _ _ Hw1).
    match goal with |- context [invoke ?c ?op] =>
      destruct (invoke_called c op w1) as (w2 & Hw2 & Hc2) end.
    rewrite (bind_Return _ _ _ _ _ Hw2).
    destruct Hc1 as (Hs1 & Hcs1 & He1). rewrite Hs1 in Hw2, Hc2 |- *.
    exists w2. split.
    + by destruct (pubsub.CreateSubscription _ _ _ _) as [[e|] σ].
    + destruct Hc2 as (Hs2 & Hcs2 & He2). unfold called.
      rewrite Hs2, Hcs2, Hcs1, He2, He1, app_nil_r. done.
Qed.

Lemma serve_app projectID rs1 rs2 σ :
  serve Sprintf projectID (rs1 ++ rs2) σ =
  match serve Sprintf projectID rs1 σ with
  | (cs, Some err, σ') => (cs, Some err, σ')
  | (cs, None, σ') =>
      let '(cs', res, σ'') := serve Sprintf projectID rs2 σ' in
      ((cs ++ cs')%list, res, σ'')
  end.
Proof.
  revert σ. induction rs1 as [|r rs1 IH]; intros σ; simpl.
  - by destruct (serve Sprintf projectID rs2 σ) as [[cs res] σ'].
  - destruct (answerOf projectID r σ) as [[err|] σ']; [done|].
    rewrite IH. destruct (serve Sprintf projectID rs1 σ') as [[cs [err|]] σ'']; [done|].
    by destruct (serve Sprintf projectID rs2 σ'') as [[cs' res] σ3].
Qed.

(** The loop over the tokens of a topic sends their requests in order. *)
Lemma createSubscriptions_serve projectID topicID subscriptions w :
  let '(cs, res, σ) :=
    serve Sprintf projectID (ReqSubscription topicID <$> subscriptions) w.(service) in
  ∃ w', for_range_err subscriptions (createSubscription Sprintf proc projectID topicID) w =
          (Return res, w') ∧
        called w w' cs σ.
Proof.
  revert w. induction subscriptions as [|subscription rest IH]; intros w.
  - exists w. split; [done|]. apply called_refl.
  - rewrite fmap_cons. cbn [serve for_range_err].
    destruct (createSubscription_called projectID topicID subscription w)
      as (w1 & Hw1 & Hc1).
    rewrite (bind_Return _ _ _ _ _ Hw1).
    destruct (answerOf projectID (ReqSubscription topicID subscription) w.(service))
      as [[err|] σ1]; cbn [fst snd fmap option_fmap option_map] in *.
    + exists w1. by split.
    + specialize (IH w1). destruct Hc1 as (Hs1 & Hcs1 & He1). rewrite Hs1 in IH.
      destruct (serve Sprintf projectID (ReqSubscription topicID <$> rest) σ1)
        as [[cs res] σ2].
      destruct IH as (w2 & Hw2 & Hs2 & Hcs2 & He2).
      exists w2. split; [done|]. unfold called.
      rewrite Hs2, Hcs2, Hcs1, He2, He1, <- app_assoc. done.
Qed.

Lemma createTopic_serve projectID entry w :
  let '(cs, res, σ) :=
    serve Sprintf projectID
      (ReqTopic entry.1 :: (ReqSubscription entry.1 <$> entry.2)) w.(service) in
  ∃ w', createTopic Sprintf proc projectID entry w = (Return res, w') ∧
        called w w' cs σ.
Proof.
  destruct entry as [topicID subscriptions]. unfold createTopic.
  cbn [fst snd serve answerOf callOf failureOf].
  destruct (debugf_called "  Creating topic %q" [OStr topicID] w) as (w1 & Hw1 & Hc1).
  rewrite (bind_Return _ _ _ _ _ Hw1).
  match goal with |- context [invoke ?c ?op] =>
    destruct (invoke_called c op w1) as (w2 & Hw2 & Hc2) end.
  rewrite (bind_Return _ _ _ _ _ Hw2).
  pose proof (called_trans _ _ _ _ _ _ _ Hc1 Hc2) as Hc. simpl in Hc.
  destruct Hc1 as (Hs1 & _ & _). rewrite Hs1 in Hc |- *.
  destruct (pubsub.CreateTopic projectID topicID w.(service)) as [[err|] σ1];
    cbn [fst snd] in *.
  - exists w2. by split.
  - pose proof (createSubscriptions_serve projectID topicID subscriptions w2) as Hsubs.
    destruct Hc as (Hs2 & Hcs2 & He2). rewrite Hs2 in Hsubs.
    destruct (serve Sprintf projectID (ReqSubscription topicID <$> subscriptions) σ1)
      as [[cs res] σ2].
    destruct Hsubs as (w3 & Hw3 & Hs3 & Hcs3 & He3).
    exists w3. split; [done|]. unfold called.
    rewrite Hs3, Hcs3, Hcs2, He3, He2, <- app_assoc. done.
Qed.

Lemma createTopics_serve projectID topics w :
  let '(cs, res, σ) := serve Sprintf projectID (requests topics) w.(service) in
  ∃ w', for_range_err topics (createTopic Sprintf proc projectID) w = (Return res, w') ∧
        called w w' cs σ.
Proof.
  revert w. induction topics as [|entry rest IH]; intros w.
  - exists w. split; [done|]. apply called_refl.
  - change (requests (entry :: rest))
      with ((ReqTopic entry.1 :: (ReqSubscription entry.1 <$> entry.2)) ++ requests rest)%list.
    rewrite serve_app. simpl for_range_err.
    pose proof (createTopic_serve projectID entry w) as Htopic.
    destruct (serve Sprintf projectID
                (ReqTopic entry.1 :: (ReqSubscription entry.1 <$> entry.2)) w.(service))
      as [[cs1 [err|]] σ1]; destruct Htopic as (w1 & Hw1 & Hc1);
      rewrite (bind_Return _ _ _ _ _ Hw1).
    + exists w1. by split.
    + specialize (IH w1). destruct Hc1 as (Hs1 & Hcs1 & He1). rewrite Hs1 in IH.
      destruct (serve Sprintf projectID (requests rest) σ1) as [[cs2 res] σ2].
      destruct IH as (w2 & Hw2 & Hs2 & Hcs2 & He2).
      exists w2. split; [done|]. unfold called.
      rewrite Hs2, Hcs2, Hcs1, He2, He1, <- app_assoc. done.
Qed.

(** [create], against the plan: a refused connection is the only call;
    otherwise the requests are sent in order up to the first refusal, the
    client is closed and the error of that refusal, if any, is returned. *)
Lemma create_serve projectID topics w :
  match pubsub.NewClient projectID w.(service) with
  | (Some err, σ0) =>
      create Sprintf proc projectID topics w =
      (Return (Some (Sprintf "Unable to create client to project %q: %s"
                       [OStr projectID; OStr err])),
       World σ0 (w.(calls) ++ [CallNewClient projectID]) w.(stdout) w.(stderr))
  | (None, σ0) =>
      let '(cs, res, σ) := serve Sprintf projectID (requests topics) σ0 in
      ∃ w', create Sprintf proc projectID topics w = (Return res, w') ∧
            called w w' (CallNewClient projectID :: cs ++ [CallClose projectID])
              (pubsub.Close projectID σ)
  end.
Proof.
  unfold create.
  destruct (pubsub.NewClient projectID w.(service)) as [[err|] σ0] eqn:Hnew.
  - unfold bind, invoke. by rewrite Hnew.
  - destruct (invoke_called (CallNewClient projectID) (pubsub.NewClient projectID) w)
      as (w0 & Hw0 & Hc0).
    rewrite Hnew in Hw0, Hc0. simpl in Hw0, Hc0.
    rewrite (bind_Return _ _ _ _ _ Hw0).
    destruct (debugf_called "Client connected with project ID %q" [OStr projectID] w0)
      as (w1 & Hw1 & Hc1).
    rewrite (bind_Return _ _ _ _ _ Hw1).
    pose proof (called_trans _ _ _ _ _ _ _ Hc0 Hc1) as Hc01.
    destruct Hc0 as (Hs0 & _ & _). rewrite Hs0 in Hc01.
    pose proof (createTopics_serve projectID topics w1) as Htopics.
    destruct Hc01 as (Hs1 & Hcs1 & He1). rewrite Hs1 in Htopics.
    destruct (serve Sprintf projectID (requests topics) σ0) as [[cs res] σ].
    destruct Htopics as (w2 & Hw2 & Hs2 & Hcs2 & He2).
    rewrite (bind_Return _ _ _ _ _ Hw2).
    eexists. split; [reflexivity|]. unfold called, invoke. simpl.
    rewrite Hs2, Hcs2, Hcs1, He2, He1. split; [done|]. split; [|done].
    by rewrite <- !app_assoc.
Qed.

(** When no request is refused, every request was sent. *)
Lemma serve_None projectID rs σ cs σ' :
  serve Sprintf projectID rs σ = (cs, None, σ') → cs = callOf projectID <$> rs.
Proof.
  revert σ cs. induction rs as [|r rs IH]; intros σ cs; simpl.
  - by intros [= <- _].
  - destruct (answerOf projectID r σ) as [[err|] σ1]; [done|].
    destruct (serve Sprintf projectID rs σ1) as [[cs1 res] σ2] eqn:Hrs.
    intros [= <- -> ->]. by rewrite (IH _ _ Hrs).
Qed.

(** The first refusal ends the walk: the requests after it are not sent. *)
Lemma serve_refused projectID pre r post σ0 cs σ1 err σ2 :
  serve Sprintf projectID pre σ0 = (cs, None, σ1) →
  answerOf projectID r σ1 = (Some err, σ2) →
  serve Sprintf projectID (pre ++ r :: post) σ0 =
  ((callOf projectID <$> pre) ++ [callOf projectID r],
   Some (failureOf Sprintf projectID r err), σ2)%list.
Proof.
  intros Hpre Hr. rewrite serve_app, Hpre. cbn [serve]. rewrite Hr.
  by rewrite (serve_None _ _ _ _ _ Hpre).
Qed.

(** The calls of a [create] that returns no error. *)
Lemma create_None_calls projectID topics w w' :
  create Sprintf proc projectID topics w = (Return None, w') →
  w'.(calls) =
    (w.(calls) ++
     CallNewClient projectID ::
     List.concat
       ((λ entry, CallCreateTopic projectID entry.1 ::
                  (callOf projectID ∘ ReqSubscription entry.1 <$> entry.2))
          <$> topics) ++
     [CallClose projectID])%list.
Proof.
  intros Hcreate.
  pose proof (create_serve projectID topics w) as Hserve.
  destruct (pubsub.NewClient projectID w.(service)) as [[err|] σ0].
  { rewrite Hcreate in Hserve. done. }
  destruct (serve Sprintf projectID (requests topics) σ0) as [[cs res] σ] eqn:Hrs.
  destruct Hserve as (w'' & Hw'' & _ & Hcs & _).
  rewrite Hcreate in Hw''. injection Hw'' as <- <-.
  rewrite Hcs, (serve_None _ _ _ _ _ Hrs). do 3 f_equal.
  unfold requests. clear. induction topics as [|[t subs] rest IH]; [done|].
  cbn [fmap list_fmap List.concat fst snd] in *.
  rewrite fmap_app, IH. cbn [fmap list_fmap callOf]. f_equal. f_equal.
  by rewrite <- list_fmap_compose.
Qed.

(** C4: for every subscription token that [create] comes to, exactly one
    [CreateSubscription] call is made: with the push endpoint ["http://"]
    followed by the decoded endpoint when that is not empty, and without
    push config when it is.  A [create] that returns no error has made
    one such call for each token of each topic, in order. *)
Theorem one_call_per_subscription :
  (∀ projectID topicID subscription w,
     ∃ err w',
       createSubscription Sprintf proc projectID topicID subscription w =
         (Return err, w') ∧
       w'.(calls) =
         (w.(calls) ++
          [CallCreateSubscription projectID (decodeSubscription subscription).1
             (if decide ((decodeSubscription subscription).2 ≠ "")
              then {| pubsub.Topic := topicID;
                      pubsub.Push :=
                        {| pubsub.Endpoint :=
                             "http://" +:+ (decodeSubscription subscription).2 |} |}
              else {| pubsub.Topic := topicID;
                      pubsub.Push := {| pubsub.Endpoint := "" |} |})])%list) ∧
  (∀ projectID topics w w',
     create Sprintf proc projectID topics w = (Return None, w') →
     w'.(calls) =
       (w.(calls) ++
        CallNewClient projectID ::
        List.concat
          ((λ entry, CallCreateTopic projectID entry.1 ::
                     (callOf projectID ∘ ReqSubscription entry.1 <$> entry.2))
             <$> topics) ++
        [CallClose projectID])%list).
Proof.
  split.
  - intros projectID topicID subscription w.
    destruct (createSubscription_called projectID topicID subscription w)
      as (w' & Hw' & _ & Hcs & _).
    eexists _, w'. split; [exact Hw'|]. exact Hcs.
  - intros projectID topics w w'. apply create_None_calls.
Qed.

(** C8: a failing creation step ends [create] at once with an error that
    describes it.  A refused connection is the only call made.  When the
    service refuses a request, the requests before it have been sent and
    answered, none is sent after it, the only further call closes the
    client, and the service is left in the state of the refusal: nothing
    is deleted. *)
Theorem no_rollback :
  (∀ projectID topics w err σ0,
     pubsub.NewClient projectID w.(service) = (Some err, σ0) →
     create Sprintf proc projectID topics w =
     (Return (Some (Sprintf "Unable to create client to project %q: %s"
                      [OStr projectID; OStr err])),
      World σ0 (w.(calls) ++ [CallNewClient projectID]) w.(stdout) w.(stderr))) ∧
  (∀ projectID topics w σ0 pre r post cs σ1 err σ2,
     pubsub.NewClient projectID w.(service) = (None, σ0) →
     requests topics = (pre ++ r :: post)%list →
     serve Sprintf projectID pre σ0 = (cs, None, σ1) →
     answerOf projectID r σ1 = (Some err, σ2) →
     ∃ w', create Sprintf proc projectID topics w =
             (Return (Some (failureOf Sprintf projectID r err)), w') ∧
           w'.(service) = pubsub.Close projectID σ2 ∧
           w'.(calls) =
             (w.(calls) ++ CallNewClient projectID :: (callOf projectID <$> pre) ++
              [callOf projectID r; CallClose projectID])%list ∧
           w'.(stderr) = w.(stderr)).
Proof.
  split.
  - intros projectID topics w err σ0 Hnew.
    pose proof (create_serve projectID topics w) as Hserve. by rewrite Hnew in Hserve.
  - intros projectID topics w σ0 pre r post cs σ1 err σ2 Hnew Hreq Hpre Hr.
    pose proof (create_serve projectID topics w) as Hserve.
    rewrite Hnew, Hreq, (serve_refused _ _ _ post _ _ _ _ _ Hpre Hr) in Hserve.
    destruct Hserve as (w' & Hw' & Hs & Hcs & He).
    exists w'. split; [done|]. split; [done|]. split; [|done].
    rewrite Hcs. by rewrite <- !app_assoc.
Qed.

End create_facts.

Lemma one_call_per_subscription_witness :
  let w := start (emulator.fresh []) in
  let r := create render.Sprintf (pubsubc [] false) "p" [("t", ["a"; "b+h|1"])] w in
  r.1 = Return None ∧
  r.2.(calls) =
    [CallNewClient "p"; CallCreateTopic "p" "t";
     CallCreateSubscription "p" "a" (pubsub.pull "t");
     CallCreateSubscription "p" "b"
       {| pubsub.Topic := "t"; pubsub.Push := {| pubsub.Endpoint := "http://h:1" |} |};
     CallClose "p"].
Proof.
  intros w r. split; [vm_compute; reflexivity|].
  rewrite (proj2 (one_call_per_subscription render.Sprintf (pubsubc [] false))
             "p" [("t", ["a"; "b+h|1"])] w r.2); [reflexivity|].
  vm_compute. reflexivity.
Defined.

Lemma no_rollback_witness :
  ∃ w', create render.Sprintf (pubsubc [] false) "p" [("t1", ["a"]); ("t2", [])]
          (start (emulator.fresh [2%nat])) =
        (Return (Some (failureOf render.Sprintf "p" (ReqSubscription "t1" "a") "unavailable")),
         w') ∧
        w'.(service) = pubsub.Close "p" (emulator.State [("p", "t1")] [] 3 [2%nat]) ∧
        w'.(calls) =
          ([] ++ CallNewClient "p" :: (callOf "p" <$> [ReqTopic "t1"]) ++
           [callOf "p" (ReqSubscription "t1" "a"); CallClose "p"])%list ∧
        w'.(stderr) = [].
Proof.
  apply (proj2 (no_rollback render.Sprintf (pubsubc [] false))
           "p" [("t1", ["a"]); ("t2", [])] (start (emulator.fresh [2%nat]))
           (emulator.State [] [] 1 [2%nat])
           [ReqTopic "t1"] (ReqSubscription "t1" "a") [ReqTopic "t2"]
           [CallCreateTopic "p" "t1"] (emulator.State [("p", "t1")] [] 2 [2%nat])
           "unavailable" (emulator.State [("p", "t1")] [] 3 [2%nat]));
    vm_compute; reflexivity.
Defined.

(** ** Topic definitions that repeat a topic name *)

Lemma parseTopics_snoc p defs def :
  parseTopics (p :: defs ++ [def]) =
  <[topicName def := topicTokens def]> (parseTopics (p :: defs)).
Proof. rewrite !parseTopics_cons. by rewrite foldl_app. Qed.

(** The last definition of a topic name is the one the map keeps. *)
Lemma parseTopics_last p defs1 def defs2 :
  (∀ d, d ∈ defs2 → topicName d ≠ topicName def) →
  parseTopics (p :: defs1 ++ def :: defs2) !! topicName def = Some (topicTokens def).
Proof.
  induction defs2 as [|d defs2 IH] using rev_ind; intros Hlater.
  - rewrite parseTopics_snoc. apply lookup_insert_eq.
  - change (defs1 ++ def :: defs2 ++ [d])%list with (defs1 ++ (def :: defs2) ++ [d])%list.
    rewrite app_assoc, parseTopics_snoc, lookup_insert_ne.
    + apply IH. intros d' Hd'. apply Hlater. set_solver.
    + apply Hlater. set_solver.
Qed.

Lemma orders_parts :
  strings.Split "demo,orders:billing,orders:shipping+svc|8080" "," =
  ["demo"; "orders:billing"; "orders:shipping+svc|8080"].
Proof. reflexivity. Qed.

Lemma orders_topics :
  parseTopics ["demo"; "orders:billing"; "orders:shipping+svc|8080"] =
  {["orders" := ["shipping+svc|8080"]]}.
Proof.
  change ["demo"; "orders:billing"; "orders:shipping+svc|8080"]
    with ("demo" :: ["orders:billing"] ++ ["orders:shipping+svc|8080"])%list.
  rewrite parseTopics_snoc.
  change ("demo" :: ["orders:billing"]) with ("demo" :: [] ++ ["orders:billing"])%list.
  rewrite parseTopics_snoc.
  change (topicName "orders:shipping+svc|8080") with "orders".
  change (topicName "orders:billing") with "orders".
  change (topicTokens "orders:shipping+svc|8080") with ["shipping+svc|8080"].
  rewrite insert_insert_eq. reflexivity.
Qed.

(** C5, on the emulator: the subscription [billing] is neither asked for nor
    there at the end. *)
Lemma orders_billing_not_created :
  ∃ w, run [("PUBSUB_PROJECT1", "demo,orders:billing,orders:shipping+svc|8080")] false [] =
         Some (Return tt, w) ∧
       w.(calls) =
         [CallNewClient "demo"; CallCreateTopic "demo" "orders";
          CallCreateSubscription "demo" "shipping"
            {| pubsub.Topic := "orders";
               pubsub.Push := {| pubsub.Endpoint := "http://svc:8080" |} |};
          CallClose "demo"; CallNewClient "demo"; CallTopics "demo";
          CallSubscriptions "demo" "orders"; CallConfig "demo" "shipping";
          CallClose "demo"] ∧
       emulator.findSubscription w.(service) "demo" "billing" = None ∧
       w.(stdout) = ["  Subscription: shipping - Endpoint: http://svc:8080" +:+ nl].
Proof.
  exists (World
    (emulator.State [("demo", "orders")]
       [("demo", "shipping",
         {| pubsub.Topic := "orders";
            pubsub.Push := {| pubsub.Endpoint := "http://svc:8080" |} |})] 7 [])
    [CallNewClient "demo"; CallCreateTopic "demo" "orders";
     CallCreateSubscription "demo" "shipping"
       {| pubsub.Topic := "orders";
          pubsub.Push := {| pubsub.Endpoint := "http://svc:8080" |} |};
     CallClose "demo"; CallNewClient "demo"; CallTopics "demo";
     CallSubscriptions "demo" "orders"; CallConfig "demo" "shipping";
     CallClose "demo"]
    ["  Subscription: shipping - Endpoint: http://svc:8080" +:+ nl] []).
  split; [vm_compute; reflexivity|].
  split; [reflexivity|]. split; [vm_compute; reflexivity|]. reflexivity.
Qed.

Section redefinition.

Context {S : Type} `{!pubsub.Client S}.
Variable Sprintf : string → list operand → string.
Variable proc : process.
Variable rangeOrder : Z → gmap string (list string) → list (string * list string).
Hypothesis rangeOrder_perm : ∀ i topics, rangeOrder i topics ≡ₚ map_to_list topics.

(** C5, as the program has it: a topic definition that repeats a topic
    name replaces the subscription list of the earlier ones.  For
    ["demo,orders:billing,orders:shipping+svc|8080"] the map holds [orders]
    with the one token ["shipping+svc|8080"], and a [create] that returns
    no error has created the topic [orders] and the push subscription
    [shipping] to ["http://svc:8080"], and nothing else. *)
Theorem redefinition_replaces :
  (∀ p defs1 def defs2,
     (∀ d, d ∈ defs2 → topicName d ≠ topicName def) →
     parseTopics (p :: defs1 ++ def :: defs2) !! topicName def = Some (topicTokens def)) ∧
  (let parts := strings.Split "demo,orders:billing,orders:shipping+svc|8080" "," in
   nth 0 parts "" = "demo" ∧
   parseTopics parts = {["orders" := ["shipping+svc|8080"]]} ∧
   ∀ i w w',
     create Sprintf proc (nth 0 parts "") (rangeOrder i (parseTopics parts)) w =
       (Return None, w') →
     w'.(calls) =
       (w.(calls) ++
        [CallNewClient "demo"; CallCreateTopic "demo" "orders";
         CallCreateSubscription "demo" "shipping"
           {| pubsub.Topic := "orders";
              pubsub.Push := {| pubsub.Endpoint := "http://svc:8080" |} |};
         CallClose "demo"])%list).
Proof.
  split; [exact parseTopics_last|].
  intros parts. subst parts. rewrite orders_parts, orders_topics.
  split; [done|]. split; [done|].
  intros i w w' Hcreate.
  assert (Horder : rangeOrder i {["orders" := ["shipping+svc|8080"]]} =
                   [("orders", ["shipping+svc|8080"])]).
  { apply Permutation_singleton_r. rewrite rangeOrder_perm.
    by rewrite map_to_list_singleton. }
  rewrite Horder in Hcreate.
  rewrite (create_None_calls Sprintf proc _ _ _ _ Hcreate).
  reflexivity.
Qed.

End redefinition.

Lemma redefinition_replaces_witness :
  let parts := strings.Split "demo,orders:billing,orders:shipping+svc|8080" "," in
  let w := start (emulator.fresh []) in
  let r := create render.Sprintf (pubsubc [] false) (nth 0 parts "")
             (map_to_list (parseTopics parts)) w in
  r.1 = Return None ∧
  r.2.(calls) =
    [CallNewClient "demo"; CallCreateTopic "demo" "orders";
     CallCreateSubscription "demo" "shipping"
       {| pubsub.Topic := "orders";
          pubsub.Push := {| pubsub.Endpoint := "http://svc:8080" |} |};
     CallClose "demo"].
Proof.
  intros parts w r. split; [vm_compute; reflexivity|].
  destruct (redefinition_replaces render.Sprintf (pubsubc [] false)
              (λ _ m, map_to_list m) (λ _ m, Permutation_refl (map_to_list m)))
    as (_ & _ & _ & Hcalls).
  apply (Hcalls 1 w r.2). vm_compute. reflexivity.
Defined.

(** ** Exits *)

Section exit_facts.

Context {S : Type} `{!pubsub.Client S}.
Variable Sprintf : string → list operand → string.
Variable proc : process.

Lemma fatal_only_ret {A} (a : A) : fatal_only (@ret S A a).
Proof. by intros w. Qed.

Lemma fatal_only_bind {A B} (m : M S A) (k : A → M S B) :
  fatal_only m → (∀ a, fatal_only (k a)) → fatal_only (bind m k).
Proof.
  intros Hm Hk w. unfold bind. specialize (Hm w).
  destruct (m w) as [[a|code] w1]; [|done].
  specialize (Hk a w1). destruct (k a w1) as [[b|code] w2]; by rewrite <- Hm.
Qed.

Lemma fatal_only_Printf format params : fatal_only (@Printf S Sprintf format params).
Proof. by intros w. Qed.

Lemma fatal_only_debugf format params :
  fatal_only (@debugf S Sprintf proc format params).
Proof. unfold debugf. destruct proc.(debug); by intros w. Qed.

Lemma fatal_only_invoke {A} c (op : S → A * S) : fatal_only (invoke c op).
Proof. intros w. unfold invoke. by destruct (op w.(service)). Qed.

Lemma fatal_only_fatalf {A} format params :
  fatal_only (@fatalf S Sprintf proc A format params).
Proof. intros w. cbn. eauto. Qed.

Lemma fatal_only_for_range {A} (l : list A) (body : A → M S unit) :
  (∀ x, fatal_only (body x)) → fatal_only (for_range l body).
Proof.
  intros Hbody. induction l as [|x l IH]; simpl.
  - apply fatal_only_ret.
  - apply fatal_only_bind; [apply Hbody|by intros _].
Qed.

Lemma fatal_only_create projectID topics :
  fatal_only (create Sprintf proc projectID topics).
Proof.
  intros w. pose proof (create_serve Sprintf proc projectID topics w) as Hserve.
  destruct (pubsub.NewClient projectID w.(service)) as [[err|] σ0].
  - by rewrite Hserve.
  - destruct (serve Sprintf projectID (requests topics) σ0) as [[cs res] σ].
    destruct Hserve as (w' & -> & _ & _ & He). done.
Qed.

Lemma fatal_only_displaySubscription projectId sub :
  fatal_only (displaySubscription Sprintf proc projectId sub).
Proof.
  unfold displaySubscription. apply fatal_only_bind; [apply fatal_only_invoke|].
  intros [err|config]; [apply fatal_only_fatalf|apply fatal_only_Printf].
Qed.

Lemma fatal_only_displayTopic projectId topic :
  fatal_only (displayTopic Sprintf proc projectId topic).
Proof.
  unfold displayTopic, listSubscriptions.
  apply fatal_only_bind.
  { apply fatal_only_bind; [apply fatal_only_invoke|]. intros it. apply fatal_only_ret. }
  intros [err|subscriptions]; [apply fatal_only_fatalf|].
  apply fatal_only_bind; [apply fatal_only_debugf|]. intros _.
  unfold displaySubscriptions. apply fatal_only_for_range. intros sub.
  apply fatal_only_bind; [|intros _; apply fatal_only_debugf].
  apply fatal_only_for_range. intros sub'. apply fatal_only_displaySubscription.
Qed.

Lemma fatal_only_displayResult projectId :
  fatal_only (displayResult Sprintf proc projectId).
Proof.
  unfold displayResult. apply fatal_only_bind; [apply fatal_only_invoke|].
  intros [err|]; [apply fatal_only_ret|].
  apply fatal_only_bind.
  { unfold listTopics. apply fatal_only_bind; [apply fatal_only_invoke|].
    intros it. apply fatal_only_ret. }
  intros [err|topics]; [apply fatal_only_fatalf|].
  apply fatal_only_bind; [|intros _; apply fatal_only_invoke].
  apply fatal_only_for_range. intros topic. apply fatal_only_displayTopic.
Qed.

Lemma fatal_only_project rangeOrder i env :
  fatal_only (project Sprintf rangeOrder proc i env).
Proof.
  unfold project. apply fatal_only_bind.
  { case_decide; [apply fatal_only_fatalf|apply fatal_only_ret]. }
  intros _. apply fatal_only_bind; [apply fatal_only_create|].
  intros err. apply fatal_only_bind; [|intros _; apply fatal_only_displayResult].
  destruct err; [apply fatal_only_fatalf|apply fatal_only_ret].
Qed.

(** An exit in the body ends the loop. *)
Lemma for_range_exit {A} (pre post : list A) x (body : A → M S unit) w w1 code w2 :
  for_range pre body w = (Return tt, w1) →
  body x w1 = (Exit code, w2) →
  for_range (pre ++ x :: post) body w = (Exit code, w2).
Proof.
  revert w. induction pre as [|y pre IH]; intros w; simpl.
  - intros [= <-] Hx. by rewrite (bind_Exit _ _ _ _ _ Hx).
  - intros Hpre Hx. unfold bind in Hpre |- *.
    destruct (body y w) as [[[]|code'] w']; [|done]. by apply IH.
Qed.

Lemma collect_stop fetched err acc :
  collect Sprintf fetched (Some err) acc = inl (Sprintf "Next: %w" [OStr err]).
Proof. revert acc. induction fetched as [|x rest IH]; intros acc; simpl; [done|apply IH]. Qed.

Lemma collect_Done fetched acc : collect Sprintf fetched None acc = inr (acc ++ fetched)%list.
Proof.
  revert acc. induction fetched as [|x rest IH]; intros acc; simpl.
  - by rewrite app_nil_r.
  - by rewrite IH, <- app_assoc.
Qed.

End exit_facts.

(** ** The loop of [main] *)

Section main_facts.

Context {S : Type} `{!pubsub.Client S}.
Variable Sprintf : string → list operand → string.
Variable flagDefaults : string.
Variable rangeOrder : Z → gmap string (list string) → list (string * list string).
Variable proc : process.

Local Abbreviation project' := (project (S:=S) Sprintf rangeOrder proc).
Local Abbreviation loop' := (loop (S:=S) Sprintf flagDefaults rangeOrder proc).
Local Abbreviation getenv i := (Getenv proc.(environ) (currentEnv Sprintf i)).

Lemma loop_missing fuel i (w : world S) :
  getenv i = "" →
  loop' (Datatypes.S fuel) i w =
  if decide (i = 1) then Some ((Usage Sprintf flagDefaults proc ;;; os_Exit 1) w)
  else Some (Return tt, w).
Proof. intros Henv. cbn [loop]. by rewrite Henv. Qed.

Lemma loop_turn fuel i (w : world S) :
  getenv i ≠ "" →
  loop' (Datatypes.S fuel) i w =
  match project' i (getenv i) w with
  | (Return _, w') => loop' fuel (i + 1) w'
  | (Exit code, w') => Some (Exit code, w')
  end.
Proof. intros Henv. cbn [loop]. by rewrite decide_False. Qed.

(** C2: a value that is not empty and has fewer than two parts makes the
    turn write the configuration error to standard error and exit with
    status [1]; the service is not called and standard output is left
    alone. *)
Theorem config_error i env (w : world S) :
  env ≠ "" →
  (List.length (strings.Split env ",") < 2)%nat →
  let w' :=
    World w.(service) w.(calls) w.(stdout)
      (w.(stderr) ++
       [Sprintf (proc.(Args0) +:+ ": " +:+ "%s: Expected at least 1 topic to be defined"
                 +:+ nl) [OStr (currentEnv Sprintf i)]]) in
  project' i env w = (Exit 1, w') ∧
  (getenv i = env → ∀ fuel, loop' (Datatypes.S fuel) i w = Some (Exit 1, w')).
Proof.
  intros Hne Hlen w'.
  assert (Hturn : project' i env w = (Exit 1, w')).
  { unfold project. rewrite decide_True by done. reflexivity. }
  split; [done|]. intros Henv fuel.
  rewrite loop_turn by (by rewrite Henv). by rewrite Henv, Hturn.
Qed.

(** The turns for the variables [i], ..., [i + k - 1], when those are set
    and the next is not. *)
Lemma loop_countFrom k : ∀ i fuel (w : world S),
  1 ≤ i →
  (∀ j, i ≤ j < i + Z.of_nat k → getenv j ≠ "") →
  getenv (i + Z.of_nat k) = "" →
  (i ≠ 1 ∨ k ≠ O) →
  (k < fuel)%nat →
  loop' fuel i w = Some (for_range (countFrom i k) (λ j, project' j (getenv j)) w).
Proof.
  induction k as [|k IH]; intros i fuel w Hi Hset Hmissing Hfirst Hfuel.
  - destruct fuel as [|fuel]; [lia|]. rewrite Z.add_0_r in Hmissing.
    rewrite loop_missing by done. rewrite decide_False by (destruct Hfirst; done). done.
  - destruct fuel as [|fuel]; [lia|].
    rewrite loop_turn by (apply Hset; lia). cbn [countFrom for_range]. unfold bind at 1.
    destruct (project' i (getenv i) w) as [[[]|code] w1]; [|done].
    apply IH; [lia| | |left; lia|lia].
    + intros j Hj. apply Hset. lia.
    + by replace (i + 1 + Z.of_nat k) with (i + Z.of_nat (Datatypes.S k)) by lia.
Qed.

(** C9: the variables are taken in the order [1], [2], ... up to the first
    that is missing.  When that is the first variable, the usage message
    is printed and the process exits with status [1].  When it is a later
    one, the loop has run the turns of the variables before it, in order,
    and no other; the process then ends normally unless a turn exited. *)
Theorem numbered_variables (n : nat) fuel (w : world S) :
  (∀ j, 1 ≤ j < 1 + Z.of_nat n → getenv j ≠ "") →
  getenv (1 + Z.of_nat n) = "" →
  (n < fuel)%nat →
  (n = O →
   loop' fuel 1 w =
   Some (Exit 1,
         World w.(service) w.(calls)
           (w.(stdout) ++
            [Sprintf ("Usage: env PUBSUB_PROJECT1=" +:+ dquote
               +:+ "project1,topic1,topic2:subscription1,topic3:subscription2+enpoint1"
               +:+ dquote +:+ " %s" +:+ nl) [OStr proc.(Args0)]])
           (w.(stderr) ++ [flagDefaults]))) ∧
  (n ≠ O →
   loop' fuel 1 w =
     Some (for_range (countFrom 1 n) (λ j, project' j (getenv j)) w) ∧
   ∀ o w', loop' fuel 1 w = Some (o, w') →
     o = Return tt ∨ o = Exit 1 ∧ ∃ msg, w'.(stderr) = (w.(stderr) ++ [msg])%list).
Proof.
  intros Hset Hmissing Hfuel. split.
  - intros ->. destruct fuel as [|fuel]; [lia|].
    rewrite loop_missing by done. reflexivity.
  - intros Hn.
    assert (Hloop : loop' fuel 1 w =
              Some (for_range (countFrom 1 n) (λ j, project' j (getenv j)) w)).
    { apply loop_countFrom; [lia|done|done|by right|done]. }
    split; [done|]. intros o w' Ho. rewrite Hloop in Ho. injection Ho as Ho.
    pose proof (fatal_only_for_range (countFrom 1 n) (λ j, project' j (getenv j))
                  (λ j, fatal_only_project Sprintf proc rangeOrder j (getenv j)) w) as Hf.
    rewrite Ho in Hf. destruct o as [[]|code]; [by left|].
    right. destruct Hf as [-> Hmsg]. done.
Qed.

Lemma Getenv_delete_empty (env : gmap string string) key k :
  env !! key = Some "" → Getenv (delete key env) k = Getenv env k.
Proof.
  intros Hkey. unfold Getenv. destruct (decide (key = k)) as [<-|Hne].
  - by rewrite lookup_delete_eq, Hkey.
  - by rewrite lookup_delete_ne.
Qed.

(** The loop reads the environment through [os.Getenv] only. *)
Lemma loop_Getenv env' :
  (∀ k, Getenv env' k = Getenv proc.(environ) k) →
  ∀ fuel i (w : world S),
    loop Sprintf flagDefaults rangeOrder (withEnviron proc env') fuel i w = loop' fuel i w.
Proof.
  intros Hext. induction fuel as [|fuel IH]; intros i w; [done|].
  cbn [loop]. cbn [environ withEnviron]. rewrite Hext.
  change (Usage Sprintf flagDefaults (withEnviron proc env'))
    with (Usage (S:=S) Sprintf flagDefaults proc).
  change (project Sprintf rangeOrder (withEnviron proc env') i (getenv i) w)
    with (project' i (getenv i) w).
  case_decide; [done|].
  destruct (project' i (getenv i) w) as [[[]|code] w1]; [apply IH|done].
Qed.

(** C10: a numbered variable that is set to the empty string is treated
    as one that is not set: removing it from the environment changes
    nothing, and at its index the scan ends, with the usage message and
    status [1] when the index is [1]. *)
Theorem empty_is_unset :
  (∀ key fuel i (w : world S),
     proc.(environ) !! key = Some "" →
     loop Sprintf flagDefaults rangeOrder
       (withEnviron proc (delete key proc.(environ))) fuel i w =
     loop' fuel i w) ∧
  (∀ i fuel (w : world S),
     proc.(environ) !! currentEnv Sprintf i = Some "" ∨
     proc.(environ) !! currentEnv Sprintf i = None →
     loop' (Datatypes.S fuel) i w =
     if decide (i = 1) then Some ((Usage Sprintf flagDefaults proc ;;; os_Exit 1) w)
     else Some (Return tt, w)).
Proof.
  split.
  - intros key fuel i w Hkey. apply loop_Getenv. intros k.
    by apply Getenv_delete_empty.
  - intros i fuel w Hi. apply loop_missing. unfold Getenv.
    by destruct Hi as [-> | ->].
Qed.

End main_facts.

(** ** The Result Reporter *)

Section reporter_facts.

Context {S : Type} `{!pubsub.Client S}.
Variable Sprintf : string → list operand → string.
Variable flagDefaults : string.
Variable rangeOrder : Z → gmap string (list string) → list (string * list string).
Variable proc : process.

Lemma debugf_stdout format params (w : world S) :
  ∃ w', debugf Sprintf proc format params w = (Return tt, w') ∧
        w'.(calls) = w.(calls) ∧
        w'.(stdout) =
          (w.(stdout) ++
           if proc.(debug) then [Sprintf (format +:+ nl) params] else [])%list.
Proof.
  unfold debugf. destruct proc.(debug).
  - eexists. split; [reflexivity|]. done.
  - exists w. by rewrite app_nil_r.
Qed.

Lemma displaySubscription_Return projectId sub (w w' : world S) :
  displaySubscription Sprintf proc projectId sub w = (Return tt, w') →
  w'.(calls) = (w.(calls) ++ [CallConfig projectId sub])%list ∧
  ∃ line, lineOf Sprintf sub line ∧ w'.(stdout) = (w.(stdout) ++ [line])%list.
Proof.
  unfold displaySubscription, bind, invoke.
  destruct (pubsub.Config projectId sub w.(service)) as [[err|config] σ]; cbn.
  - done.
  - intros [= <-]. split; [done|]. eexists. split; [by eexists|done].
Qed.

(** The inner loop prints one line for each subscription of the topic. *)
Lemma inner_loop_Return projectId subscriptions : ∀ (w w' : world S),
  for_range subscriptions (displaySubscription Sprintf proc projectId) w = (Return tt, w') →
  w'.(calls) = (w.(calls) ++ (CallConfig projectId <$> subscriptions))%list ∧
  ∃ lines, Forall2 (lineOf Sprintf) subscriptions lines ∧
           w'.(stdout) = (w.(stdout) ++ lines)%list.
Proof.
  induction subscriptions as [|sub rest IH]; intros w w'; simpl.
  - intros [= <-]. rewrite !app_nil_r. split; [done|]. exists []. by rewrite app_nil_r.
  - unfold bind at 1.
    destruct (displaySubscription Sprintf proc projectId sub w) as [[[]|code] w1] eqn:Hsub;
      [|done].
    intros Hrest. apply displaySubscription_Return in Hsub as (Hc1 & line & Hline & Ho1).
    apply IH in Hrest as (Hc2 & lines & Hlines & Ho2).
    split; [by rewrite Hc2, Hc1, <- app_assoc|].
    exists (line :: lines). split; [by constructor|].
    by rewrite Ho2, Ho1, <- app_assoc.
Qed.

(** The outer loop runs the inner loop once for each element of [outer]. *)
Lemma outer_loop_Return projectId subscriptions outer : ∀ (w w' : world S),
  for_range outer (λ sub,
    for_range subscriptions (displaySubscription Sprintf proc projectId) ;;;
    debugf Sprintf proc ("  Subscription: %s" +:+ nl) [OStr sub]) w = (Return tt, w') →
  w'.(calls) =
    (w.(calls) ++
     List.concat (replicate (List.length outer) (CallConfig projectId <$> subscriptions)))%list ∧
  ∃ blocks,
    Forall2 (λ sub block,
               ∃ lines, Forall2 (lineOf Sprintf) subscriptions lines ∧
                        block = (lines ++
                                 if proc.(debug)
                                 then [Sprintf (("  Subscription: %s" +:+ nl) +:+ nl)
                                         [OStr sub]]
                                 else [])%list) outer blocks ∧
    w'.(stdout) = (w.(stdout) ++ List.concat blocks)%list.
Proof.
  induction outer as [|sub rest IH]; intros w w'; simpl.
  - intros [= <-]. rewrite !app_nil_r. split; [done|]. exists []. by rewrite app_nil_r.
  - unfold bind at 1. unfold bind at 1.
    destruct (for_range subscriptions (displaySubscription Sprintf proc projectId) w)
      as [[[]|code] w1] eqn:Hinner; [|done].
    destruct (debugf_stdout ("  Subscription: %s" +:+ nl) [OStr sub] w1)
      as (w2 & -> & Hc2 & Ho2).
    intros Hrest. apply inner_loop_Return in Hinner as (Hc1 & lines & Hlines & Ho1).
    apply IH in Hrest as (Hc3 & blocks & Hblocks & Ho3).
    split; [by rewrite Hc3, Hc2, Hc1, <- app_assoc|].
    eexists (_ :: blocks). split; [constructor; [by exists lines|done]|].
    rewrite Ho3, Ho2, Ho1. simpl. by rewrite <- !app_assoc.
Qed.

(** C7, as the program has it: for a topic with [n] subscriptions the line
    of each subscription is printed [n] times, once in each of the [n]
    blocks that the nested loops over the same list produce; with the
    subscriptions [a] and [b] four lines are printed. *)
Theorem subscription_lines_repeat :
  (∀ projectId subscriptions (w w' : world S),
     displaySubscriptions Sprintf proc projectId subscriptions w = (Return tt, w') →
     w'.(calls) =
       (w.(calls) ++
        List.concat (replicate (List.length subscriptions)
                       (CallConfig projectId <$> subscriptions)))%list ∧
     ∃ blocks,
       List.length blocks = List.length subscriptions ∧
       Forall (λ block,
                 ∃ lines rest, Forall2 (lineOf Sprintf) subscriptions lines ∧
                               block = (lines ++ rest)%list ∧
                               (List.length rest ≤ 1)%nat) blocks ∧
       w'.(stdout) = (w.(stdout) ++ List.concat blocks)%list) ∧
  (∃ w, run [("PUBSUB_PROJECT1", "p,t:a:b")] false [] = Some (Return tt, w) ∧
        w.(stdout) =
          [subscriptionLine render.Sprintf "a" ""; subscriptionLine render.Sprintf "b" "";
           subscriptionLine render.Sprintf "a" ""; subscriptionLine render.Sprintf "b" ""]).
Proof.
  split.
  - intros projectId subscriptions w w' Hrun.
    apply outer_loop_Return in Hrun as (Hcalls & blocks & Hblocks & Hout).
    split; [done|]. exists blocks.
    split; [symmetry; by eapply Forall2_length|]. split; [|done].
    clear Hout Hcalls. eapply Forall2_Forall_r; [exact Hblocks|].
    apply Forall_forall. intros sub _ block Hblock. simpl in Hblock.
    destruct Hblock as (lines & Hlines & ->).
    exists lines. eexists. split; [done|]. split; [done|].
    destruct proc.(debug); simpl; lia.
  - eexists (World _ _ _ _). split; [vm_compute; reflexivity|]. reflexivity.
Qed.

(** A failure to make the client in [displayResult] is dropped. *)
Lemma displayResult_no_client projectId (w : world S) err σ :
  pubsub.NewClient projectId w.(service) = (Some err, σ) →
  displayResult Sprintf proc projectId w =
  (Return tt, World σ (w.(calls) ++ [CallNewClient projectId]) w.(stdout) w.(stderr)).
Proof. intros Hnew. unfold displayResult, bind, invoke. by rewrite Hnew. Qed.

Lemma displayResult_no_topics projectId (w : world S) σ0 it σ1 err :
  pubsub.NewClient projectId w.(service) = (None, σ0) →
  pubsub.Topics projectId σ0 = (it, σ1) →
  it.(pubsub.stop) = Some err →
  displayResult Sprintf proc projectId w =
  (Exit 1,
   World σ1 (w.(calls) ++ [CallNewClient projectId; CallTopics projectId]) w.(stdout)
     (w.(stderr) ++
      [Sprintf (proc.(Args0) +:+ ": " +:+ "Failed to list topics: %s" +:+ nl)
         [OStr (Sprintf "Next: %w" [OStr err])]])).
Proof.
  intros Hnew Htopics Hstop. unfold displayResult, listTopics, bind, invoke.
  rewrite Hnew. cbn. rewrite Htopics. cbn. rewrite Hstop, collect_stop. cbn.
  by rewrite <- app_assoc.
Qed.

Lemma displayTopic_no_subscriptions projectId topic (w : world S) it σ1 err :
  pubsub.Subscriptions projectId topic w.(service) = (it, σ1) →
  it.(pubsub.stop) = Some err →
  displayTopic Sprintf proc projectId topic w =
  (Exit 1,
   World σ1 (w.(calls) ++ [CallSubscriptions projectId topic]) w.(stdout)
     (w.(stderr) ++
      [Sprintf (proc.(Args0) +:+ ": " +:+ "Failed to list subscriptions: %s" +:+ nl)
         [OStr (Sprintf "Next: %w" [OStr err])]])).
Proof.
  intros Hsubs Hstop. unfold displayTopic, listSubscriptions, bind, invoke.
  rewrite Hsubs. cbn. by rewrite Hstop, collect_stop.
Qed.

Lemma displaySubscription_no_config projectId sub (w : world S) err σ1 :
  pubsub.Config projectId sub w.(service) = (inl err, σ1) →
  displaySubscription Sprintf proc projectId sub w =
  (Exit 1,
   World σ1 (w.(calls) ++ [CallConfig projectId sub]) w.(stdout)
     (w.(stderr) ++
      [Sprintf (proc.(Args0) +:+ ": " +:+ "Failed to get subscription config %s" +:+ nl)
         [OStr err]])).
Proof. intros Hconfig. unfold displaySubscription, bind, invoke. by rewrite Hconfig. Qed.

(** The turn of a variable with at least two parts, after [create]. *)
Lemma project_created i env (w w1 : world S) res :
  ¬ (List.length (strings.Split env ",") < 2)%nat →
  create Sprintf proc (nth 0 (strings.Split env ",") "")
    (rangeOrder i (parseTopics (strings.Split env ","))) w = (Return res, w1) →
  project Sprintf rangeOrder proc i env w =
  match res with
  | Some err =>
      (Exit 1,
       World w1.(service) w1.(calls) w1.(stdout)
         (w1.(stderr) ++ [Sprintf (proc.(Args0) +:+ ": " +:+ err +:+ nl) []]))
  | None => displayResult Sprintf proc (nth 0 (strings.Split env ",") "") w1
  end.
Proof.
  intros Hlen Hcreate. unfold project. rewrite decide_False by done.
  unfold bind at 1. cbn [ret]. rewrite (bind_Return _ _ _ _ _ Hcreate).
  by destruct res.
Qed.

(** Where the errors of a turn lead.  A turn of the loop exits only with status
    [1] and one message on standard error, and an exit ends the loop, so
    that no later variable is read.  A value without topic, an error of
    [create] (connecting or creating) and an error in listing the topics,
    listing the subscriptions or reading a subscription config each lead
    to such an exit where they occur, and an exit inside a loop or a
    sequence ends it.  The exception is a failure to make the client in
    [displayResult]: nothing is printed, the turn returns and the loop
    goes on to the next variable. *)
Theorem errors_exit :
  (∀ i env (w w' : world S) code,
     project Sprintf rangeOrder proc i env w = (Exit code, w') →
     code = 1 ∧ ∃ msg, w'.(stderr) = (w.(stderr) ++ [msg])%list) ∧
  (∀ fuel i (w w' : world S) code,
     Getenv proc.(environ) (currentEnv Sprintf i) ≠ "" →
     project Sprintf rangeOrder proc i
       (Getenv proc.(environ) (currentEnv Sprintf i)) w = (Exit code, w') →
     loop Sprintf flagDefaults rangeOrder proc (Datatypes.S fuel) i w =
     Some (Exit code, w')) ∧
  (∀ i env (w : world S),
     (List.length (strings.Split env ",") < 2)%nat →
     project Sprintf rangeOrder proc i env w =
     (Exit 1,
      World w.(service) w.(calls) w.(stdout)
        (w.(stderr) ++
         [Sprintf (proc.(Args0) +:+ ": " +:+ "%s: Expected at least 1 topic to be defined"
                   +:+ nl) [OStr (currentEnv Sprintf i)]]))) ∧
  (∀ i env (w w1 : world S) err,
     ¬ (List.length (strings.Split env ",") < 2)%nat →
     create Sprintf proc (nth 0 (strings.Split env ",") "")
       (rangeOrder i (parseTopics (strings.Split env ","))) w = (Return (Some err), w1) →
     project Sprintf rangeOrder proc i env w =
     (Exit 1,
      World w1.(service) w1.(calls) w1.(stdout)
        (w1.(stderr) ++ [Sprintf (proc.(Args0) +:+ ": " +:+ err +:+ nl) []]))) ∧
  (∀ projectId (w : world S) σ0 it σ1 err,
     pubsub.NewClient projectId w.(service) = (None, σ0) →
     pubsub.Topics projectId σ0 = (it, σ1) →
     it.(pubsub.stop) = Some err →
     displayResult Sprintf proc projectId w =
     (Exit 1,
      World σ1 (w.(calls) ++ [CallNewClient projectId; CallTopics projectId]) w.(stdout)
        (w.(stderr) ++
         [Sprintf (proc.(Args0) +:+ ": " +:+ "Failed to list topics: %s" +:+ nl)
            [OStr (Sprintf "Next: %w" [OStr err])]]))) ∧
  (∀ projectId topic (w : world S) it σ1 err,
     pubsub.Subscriptions projectId topic w.(service) = (it, σ1) →
     it.(pubsub.stop) = Some err →
     displayTopic Sprintf proc projectId topic w =
     (Exit 1,
      World σ1 (w.(calls) ++ [CallSubscriptions projectId topic]) w.(stdout)
        (w.(stderr) ++
         [Sprintf (proc.(Args0) +:+ ": " +:+ "Failed to list subscriptions: %s" +:+ nl)
            [OStr (Sprintf "Next: %w" [OStr err])]]))) ∧
  (∀ projectId sub (w : world S) err σ1,
     pubsub.Config projectId sub w.(service) = (inl err, σ1) →
     displaySubscription Sprintf proc projectId sub w =
     (Exit 1,
      World σ1 (w.(calls) ++ [CallConfig projectId sub]) w.(stdout)
        (w.(stderr) ++
         [Sprintf (proc.(Args0) +:+ ": " +:+ "Failed to get subscription config %s"
                   +:+ nl) [OStr err]]))) ∧
  (∀ A (pre post : list A) x (body : A → M S unit) w w1 code w2,
     for_range pre body w = (Return tt, w1) →
     body x w1 = (Exit code, w2) →
     for_range (pre ++ x :: post) body w = (Exit code, w2)) ∧
  (∀ A B (m : M S A) (k : A → M S B) w code w',
     m w = (Exit code, w') → bind m k w = (Exit code, w')) ∧
  (∀ projectId (w : world S) err σ,
     pubsub.NewClient projectId w.(service) = (Some err, σ) →
     displayResult Sprintf proc projectId w =
     (Return tt,
      World σ (w.(calls) ++ [CallNewClient projectId]) w.(stdout) w.(stderr))) ∧
  (∀ fuel i (w w1 : world S) err σ,
     let env := Getenv proc.(environ) (currentEnv Sprintf i) in
     let projectID := nth 0 (strings.Split env ",") "" in
     env ≠ "" →
     ¬ (List.length (strings.Split env ",") < 2)%nat →
     create Sprintf proc projectID
       (rangeOrder i (parseTopics (strings.Split env ","))) w = (Return None, w1) →
     pubsub.NewClient projectID w1.(service) = (Some err, σ) →
     loop Sprintf flagDefaults rangeOrder proc (Datatypes.S fuel) i w =
     loop Sprintf flagDefaults rangeOrder proc fuel (i + 1)
       (World σ (w1.(calls) ++ [CallNewClient projectID]) w1.(stdout) w1.(stderr))).
Proof.
  repeat apply conj.
  - intros i env w w' code Hexit.
    pose proof (fatal_only_project Sprintf proc rangeOrder i env w) as Hf.
    by rewrite Hexit in Hf.
  - intros fuel i w w' code Henv Hexit. cbn [loop].
    rewrite decide_False by done. by rewrite Hexit.
  - intros i env w Hlen. unfold project. by rewrite decide_True.
  - intros i env w w1 err Hlen Hcreate.
    by rewrite (project_created _ _ _ _ _ Hlen Hcreate).
  - intros projectId w σ0 it σ1 err. apply displayResult_no_topics.
  - intros projectId topic w it σ1 err. apply displayTopic_no_subscriptions.
  - intros projectId sub w err σ1. apply displaySubscription_no_config.
  - intros A pre post x body w w1 code w2. apply for_range_exit.
  - intros A B m k w code w'. apply bind_Exit.
  - intros projectId w err σ. apply displayResult_no_client.
  - intros fuel i w w1 err σ env projectID Henv Hlen Hcreate Hnew.
    cbn [loop]. fold env. rewrite decide_False by done.
    rewrite (project_created _ _ _ _ _ Hlen Hcreate).
    fold projectID. by rewrite (displayResult_no_client _ _ _ _ Hnew).
Qed.

End reporter_facts.

(** ** The program on concrete inputs *)

Example Split_example :
  strings.Split "p,t1:s1,t2" "," = ["p"; "t1:s1"; "t2"].
Proof. reflexivity. Qed.

Example Split_empty : strings.Split "" "," = [""].
Proof. reflexivity. Qed.

Example Split_trailing : strings.Split "a,,b," "," = ["a"; ""; "b"; ""].
Proof. reflexivity. Qed.

Example Replace_example : strings.Replace "host|8080|x" "|" ":" 1 = "host:8080|x".
Proof. reflexivity. Qed.

Example TrimSpace_example : strings.TrimSpace "  a b 	" = "a b".
Proof. reflexivity. Qed.

(** U+00A0 in front and U+2003 behind are trimmed; a lone byte [0xA0] is not. *)
Example TrimSpace_unicode :
  strings.TrimSpace
    (String "194" (String "160" ("a b" +:+ String "226" (String "128" (String "131" ""))))) =
  "a b" ∧
  strings.TrimSpace (String "160" "a") = String "160" "a".
Proof. split; reflexivity. Qed.

Example decode_second_plus : decodeSubscription " s + h|1|2 + x" = ("s", "h:1|2").
Proof. reflexivity. Qed.

Lemma config_error_witness :
  run [("PUBSUB_PROJECT1", "p")] false [] =
  Some (Exit 1,
        World (emulator.fresh []) [] []
          ["pubsubc: PUBSUB_PROJECT1: Expected at least 1 topic to be defined" +:+ nl]).
Proof.
  assert (Hne : "p" ≠ "") by done.
  assert (Hlen : (List.length (strings.Split "p" ",") < 2)%nat) by (simpl; lia).
  exact (proj2 (config_error render.Sprintf "" (λ _ m, map_to_list m)
                  (pubsubc [("PUBSUB_PROJECT1", "p")] false) 1 "p"
                  (start (emulator.fresh [])) Hne Hlen) eq_refl 9%nat).
Defined.

Lemma numbered_variables_witness :
  let proc := pubsubc [("PUBSUB_PROJECT1", "p,t")] false in
  let w := start (emulator.fresh []) in
  loop render.Sprintf "" (λ _ m, map_to_list m) proc 10 1 w =
  Some (for_range (countFrom 1 1)
          (λ j, project render.Sprintf (λ _ m, map_to_list m) proc j
                  (Getenv proc.(environ) (currentEnv render.Sprintf j))) w).
Proof.
  intros proc w.
  refine (proj1 (proj2 (numbered_variables render.Sprintf "" (λ _ m, map_to_list m)
                          proc 1 10 w _ _ _) _)).
  - intros j Hj. assert (j = 1) as -> by lia. vm_compute. done.
  - vm_compute. reflexivity.
  - lia.
  - done.
Defined.

Lemma empty_is_unset_witness :
  let proc := pubsubc [("PUBSUB_PROJECT1", "p,t"); ("PUBSUB_PROJECT2", "")] false in
  let w := start (emulator.fresh []) in
  loop render.Sprintf "" (λ _ m, map_to_list m)
    (withEnviron proc (delete "PUBSUB_PROJECT2" proc.(environ))) 10 1 w =
  loop render.Sprintf "" (λ _ m, map_to_list m) proc 10 1 w.
Proof.
  intros proc w.
  apply (proj1 (empty_is_unset render.Sprintf "" (λ _ m, map_to_list m) proc)).
  vm_compute. reflexivity.
Defined.

(** C6, on the emulator: the third request, the connection of
    [displayResult] for the first project, is refused.  Nothing is written
    to standard error, the second project is provisioned and reported, and
    the process ends with status [0]. *)
Lemma reporter_connect_failure_continues :
  pubsub.NewClient "p" (emulator.State [("p", "t")] [] 2 [2%nat]) =
    (Some "unavailable", emulator.State [("p", "t")] [] 3 [2%nat]) ∧
  run [("PUBSUB_PROJECT1", "p,t"); ("PUBSUB_PROJECT2", "q,u")] false [2%nat] =
  Some (Return tt,
        World (emulator.State [("p", "t"); ("q", "u")] [] 8 [2%nat])
          [CallNewClient "p"; CallCreateTopic "p" "t"; CallClose "p"; CallNewClient "p";
           CallNewClient "q"; CallCreateTopic "q" "u"; CallClose "q";
           CallNewClient "q"; CallTopics "q"; CallSubscriptions "q" "u"; CallClose "q"]
          [] []) ∧
  (λ r, status r.1) <$>
    run [("PUBSUB_PROJECT1", "p,t"); ("PUBSUB_PROJECT2", "q,u")] false [2%nat] = Some 0.
Proof. repeat apply conj; vm_compute; reflexivity. Qed.

Lemma errors_exit_witness :
  let proc := pubsubc [("PUBSUB_PROJECT1", "p,t"); ("PUBSUB_PROJECT2", "q,u")] false in
  loop render.Sprintf "" (λ _ m, map_to_list m) proc 10 1 (start (emulator.fresh [2%nat])) =
  loop render.Sprintf "" (λ _ m, map_to_list m) proc 9 (1 + 1)
    (World (emulator.State [("p", "t")] [] 3 [2%nat])
       ([CallNewClient "p"; CallCreateTopic "p" "t"; CallClose "p"] ++ [CallNewClient "p"])
       [] []).
Proof.
  intros proc.
  destruct (errors_exit render.Sprintf "" (λ _ m, map_to_list m) proc)
    as (_ & _ & _ & _ & _ & _ & _ & _ & _ & _ & Hnext).
  apply (Hnext 9%nat 1 (start (emulator.fresh [2%nat]))
           (World (emulator.State [("p", "t")] [] 2 [2%nat])
              [CallNewClient "p"; CallCreateTopic "p" "t"; CallClose "p"] [] [])
           "unavailable").
  - vm_compute. done.
  - vm_compute. lia.
  - vm_compute. reflexivity.
  - vm_compute. reflexivity.
Defined.

Lemma subscription_lines_repeat_witness :
  let w :=
    start (emulator.State [("p", "t")]
             [("p", "a", pubsub.pull "t"); ("p", "b", pubsub.pull "t")] 0 []) in
  let r := displaySubscriptions render.Sprintf (pubsubc [] false) "p" ["a"; "b"] w in
  r.1 = Return tt ∧
  r.2.(calls) =
    ([] ++ List.concat (replicate 2 (CallConfig "p" <$> ["a"; "b"])))%list.
Proof.
  intros w r. split; [vm_compute; reflexivity|].
  refine (proj1 (proj1 (subscription_lines_repeat render.Sprintf (pubsubc [] false))
                   "p" ["a"; "b"] w r.2 _)).
  vm_compute. reflexivity.
Defined.

(** ** [main] around the loop *)

Section main_flags.

Context {S : Type} `{!pubsub.Client S}.
Variable Sprintf : string → list operand → string.
Variable flagDefaults CommitHash Revision runtimeVersion : string.
Variable rangeOrder : Z → gmap string (list string) → list (string * list string).
Variable proc : process.

Local Abbreviation main' :=
  (main (S:=S) Sprintf flagDefaults CommitHash Revision runtimeVersion rangeOrder proc).

(** Without [-help] and [-version], [main] is the loop from index [1]. *)
Lemma main_loop fuel (w : world S) :
  proc.(help) = false → proc.(version) = false →
  main' fuel w = loop Sprintf flagDefaults rangeOrder proc fuel 1 w.
Proof. intros Hhelp Hversion. unfold main. by rewrite Hhelp, Hversion. Qed.

(** With [-help] or [-version] no variable is read and nothing is called. *)
Lemma main_help_version fuel (w : world S) :
  proc.(help) = true ∨ proc.(version) = true →
  ∃ w', main' fuel w = Some (Return tt, w') ∧
        w'.(calls) = w.(calls) ∧ w'.(service) = w.(service).
Proof.
  unfold main. intros [Hflag|Hflag].
  - rewrite Hflag. by eexists.
  - rewrite Hflag. destruct proc.(help); by eexists.
Qed.

End main_flags.

(** * Further properties of the program *)

(** ** Listing through an iterator *)

Section listing_facts.

Context {S : Type} `{!pubsub.Client S}.
Variable Sprintf : string → list operand → string.

(** What the loop over an iterator returns. *)
Lemma collect_all fetched stop :
  collect Sprintf fetched stop [] =
  match stop with
  | None => inr fetched
  | Some err => inl (Sprintf "Next: %w" [OStr err])
  end.
Proof. destruct stop as [err|]; [apply collect_stop|apply collect_Done]. Qed.

(** X1: [listTopics] and [listSubscriptions] make one call, write nothing and
    return: all the ids of the iterator, in its order, when it ends with
    [iterator.Done], and otherwise the error of the iterator wrapped in
    ["Next: %w"], whatever ids came before it. *)
Theorem listing_collects :
  (∀ client (w : world S),
     let it := (pubsub.Topics client w.(service)).1 in
     listTopics Sprintf client w =
     (Return (match it.(pubsub.stop) with
              | None => inr it.(pubsub.items)
              | Some err => inl (Sprintf "Next: %w" [OStr err])
              end),
      World (pubsub.Topics client w.(service)).2
        (w.(calls) ++ [CallTopics client]) w.(stdout) w.(stderr))) ∧
  (∀ client topicID (w : world S),
     let it := (pubsub.Subscriptions client topicID w.(service)).1 in
     listSubscriptions Sprintf client topicID w =
     (Return (match it.(pubsub.stop) with
              | None => inr it.(pubsub.items)
              | Some err => inl (Sprintf "Next: %w" [OStr err])
              end),
      World (pubsub.Subscriptions client topicID w.(service)).2
        (w.(calls) ++ [CallSubscriptions client topicID]) w.(stdout) w.(stderr))).
Proof.
  split.
  - intros client w it. subst it. unfold listTopics, bind, invoke.
    destruct (pubsub.Topics client w.(service)) as [it σ]. cbn.
    by rewrite collect_all.
  - intros client topicID w it. subst it. unfold listSubscriptions, bind, invoke.
    destruct (pubsub.Subscriptions client topicID w.(service)) as [it σ]. cbn.
    by rewrite collect_all.
Qed.

End listing_facts.

(** ** The parsed map *)

(** The map holds a name exactly when a definition has it, and then with
    the tokens of the last such definition. *)
Lemma parseTopics_lookup p defs t toks :
  parseTopics (p :: defs) !! t = Some toks ↔
  ∃ defs1 def defs2,
    defs = (defs1 ++ def :: defs2)%list ∧ topicName def = t ∧ topicTokens def = toks ∧
    ∀ d, d ∈ defs2 → topicName d ≠ t.
Proof.
  split.
  - revert toks. induction defs as [|d defs IH] using rev_ind; intros toks.
    + unfold parseTopics. simpl. by rewrite lookup_empty.
    + rewrite parseTopics_snoc. destruct (decide (topicName d = t)) as [<-|Hne].
      * rewrite lookup_insert_eq. intros [= <-].
        exists defs, d, []. split; [done|]. split; [done|]. split; [done|].
        intros d' Hd'. by apply elem_of_nil in Hd'.
      * rewrite lookup_insert_ne by done. intros Hlook.
        destruct (IH _ Hlook) as (defs1 & def & defs2 & -> & Hname & Htoks & Hlater).
        exists defs1, def, (defs2 ++ [d])%list.
        split; [by rewrite <- app_assoc|]. split; [done|]. split; [done|].
        intros d' [Hd'|Hd']%elem_of_app; [by apply Hlater|].
        apply list_elem_of_singleton in Hd' as ->. done.
  - intros (defs1 & def & defs2 & -> & <- & <- & Hlater). by apply parseTopics_last.
Qed.

(** X2: the parsed map is the map of the last definitions: a name maps to
    a token list exactly when that list is the one of the last definition
    with that name; the names of the map are the names defined; there are at
    most as many as definitions, and at least one when there is a
    definition, which is what the check of [main] on the number of parts
    asks for. *)
Theorem parsed_map :
  (∀ p defs t toks,
     parseTopics (p :: defs) !! t = Some toks ↔
     ∃ defs1 def defs2,
       defs = (defs1 ++ def :: defs2)%list ∧ topicName def = t ∧ topicTokens def = toks ∧
       ∀ d, d ∈ defs2 → topicName d ≠ t) ∧
  (∀ p defs, dom (parseTopics (p :: defs)) = list_to_set (topicName <$> defs)) ∧
  (∀ p defs, (size (parseTopics (p :: defs)) ≤ List.length defs)%nat) ∧
  (∀ env, ¬ (List.length (strings.Split env ",") < 2)%nat →
     parseTopics (strings.Split env ",") ≠ ∅).
Proof.
  assert (Hdom : ∀ p defs,
            dom (parseTopics (p :: defs)) =@{gset string} list_to_set (topicName <$> defs)).
  { intros p defs. induction defs as [|d defs IH] using rev_ind.
    - unfold parseTopics. simpl. by rewrite dom_empty_L.
    - rewrite parseTopics_snoc, dom_insert_L, IH, fmap_app, list_to_set_app_L.
      simpl. set_solver. }
  split; [exact parseTopics_lookup|]. split; [exact Hdom|]. split.
  - intros p defs. induction defs as [|d defs IH] using rev_ind.
    + unfold parseTopics. simpl. by rewrite map_size_empty.
    + rewrite parseTopics_snoc, length_app. simpl.
      destruct (parseTopics (p :: defs) !! topicName d) as [old|] eqn:Hold.
      * rewrite map_size_insert_Some by done. lia.
      * rewrite map_size_insert_None by done. lia.
  - intros env Hlen Hempty.
    destruct (strings.Split env ",") as [|p [|d defs]] eqn:Hparts; simpl in Hlen; [lia..|].
    assert (Hin : topicName d ∈ dom (parseTopics (p :: d :: defs))).
    { rewrite Hdom. set_solver. }
    rewrite Hempty, dom_empty_L in Hin. set_solver.
Qed.

Lemma parsed_map_witness : parseTopics (strings.Split "p,t" ",") ≠ ∅.
Proof.
  destruct parsed_map as (_ & _ & _ & Hne). apply (Hne "p,t"). simpl. lia.
Defined.

(** ** Separators *)

Lemma Split_parts_free s sep x : x ∈ strings.Split s sep → strings.Count x sep = O.
Proof.
  revert x. induction s as [|c r IH]; intros x; simpl.
  - by intros ->%list_elem_of_singleton.
  - case_decide as Hc.
    + intros [->|Hx]%elem_of_cons; [done|by apply IH].
    + destruct (strings.Split r sep) as [|y ys]; simpl.
      * intros ->%list_elem_of_singleton. simpl. by rewrite decide_False.
      * intros [->|Hx]%elem_of_cons.
        -- simpl. rewrite decide_False by done. apply IH. by left.
        -- apply IH. by right.
Qed.

(** Splitting adds no byte: a part has at most the occurrences of [c] that
    the string has. *)
Lemma Split_parts_Count s sep c x :
  x ∈ strings.Split s sep → (strings.Count x c ≤ strings.Count s c)%nat.
Proof.
  revert x. induction s as [|c' r IH]; intros x; simpl.
  - by intros ->%list_elem_of_singleton.
  - case_decide as Hsep.
    + intros [->|Hx]%elem_of_cons; simpl; [lia|].
      specialize (IH _ Hx). case_decide; lia.
    + destruct (strings.Split r sep) as [|y ys]; simpl.
      * intros ->%list_elem_of_singleton. simpl. case_decide; lia.
      * intros [->|Hx]%elem_of_cons.
        -- simpl. assert (Hy : y ∈ y :: ys) by by left.
           specialize (IH _ Hy). case_decide; lia.
        -- assert (Hx' : x ∈ y :: ys) by by right.
           specialize (IH _ Hx'). case_decide; lia.
Qed.

Lemma nth_0_Split s sep : nth 0 (strings.Split s sep) "" ∈ strings.Split s sep.
Proof.
  pose proof (Split_not_nil s sep) as Hne.
  destruct (strings.Split s sep) as [|x xs]; [done|]. simpl. by left.
Qed.

Lemma drop_1_elem {A} (x : A) l : x ∈ drop 1 l → x ∈ l.
Proof. destruct l as [|y l]; simpl; [done|]. rewrite drop_0. by right. Qed.

(** X3: what comes out of the Config Parser holds no separator: the project
    id has no [','], and a topic name of the map and each of its tokens have
    neither [','] nor [':']. *)
Theorem names_without_separators env :
  let parts := strings.Split env "," in
  strings.Count (nth 0 parts "") "," = O ∧
  ∀ t toks, parseTopics parts !! t = Some toks →
    strings.Count t "," = O ∧ strings.Count t ":" = O ∧
    Forall (λ tok, strings.Count tok "," = O ∧ strings.Count tok ":" = O) toks.
Proof.
  intros parts. subst parts. split.
  - eapply Split_parts_free, nth_0_Split.
  - intros t toks Hlook.
    pose proof (Split_not_nil env ",") as Hne.
    destruct (strings.Split env ",") as [|p defs] eqn:Hparts; [done|].
    apply parseTopics_lookup in Hlook
      as (defs1 & def & defs2 & Hdefs & <- & <- & _).
    assert (Hdef : def ∈ strings.Split env ",").
    { rewrite Hparts, Hdefs. set_solver. }
    apply Split_parts_free in Hdef.
    assert (Hcomma : ∀ x, x ∈ strings.Split def ":" → strings.Count x "," = O).
    { intros x Hx. pose proof (Split_parts_Count def ":" "," x Hx). lia. }
    split; [apply Hcomma, nth_0_Split|].
    split; [eapply Split_parts_free, nth_0_Split|].
    apply Forall_forall. intros tok Htok%drop_1_elem.
    split; [by apply Hcomma|by apply Split_parts_free in Htok].
Qed.

(** ** Names that are empty *)

Section empty_names.

Variable rangeOrder : Z → gmap string (list string) → list (string * list string).
Hypothesis rangeOrder_perm : ∀ i topics, rangeOrder i topics ≡ₚ map_to_list topics.

(** X4: nothing checks that a name is not empty.  A value that ends in [',']
    passes the check on the number of parts and asks for a topic with the
    empty id; a value that starts with [','] has the empty project id; a
    topic definition that ends in [':'] has one token, the empty one, which
    asks for a pull subscription with the empty id. *)
Theorem empty_names_pass :
  (∀ i p, strings.Count p "," = O →
     let parts := strings.Split (p +:+ ",") "," in
     ¬ (List.length parts < 2)%nat ∧ nth 0 parts "" = p ∧
     requests (rangeOrder i (parseTopics parts)) = [ReqTopic ""]) ∧
  (∀ defs, nth 0 (strings.Split (String "," defs) ",") "" = "") ∧
  (∀ i p t, strings.Count p "," = O → strings.Count t "," = O → strings.Count t ":" = O →
     let parts := strings.Split (p +:+ "," +:+ t +:+ ":") "," in
     requests (rangeOrder i (parseTopics parts)) = [ReqTopic t; ReqSubscription t ""] ∧
     callOf p (ReqSubscription t "") = CallCreateSubscription p "" (pubsub.pull t)).
Proof.
  assert (Hone : ∀ i t toks, rangeOrder i {[t := toks]} = [(t, toks)]).
  { intros i t toks. apply Permutation_singleton_r.
    by rewrite rangeOrder_perm, map_to_list_singleton. }
  split; [|split].
  - intros i p Hp parts. subst parts.
    change (p +:+ ",") with (p +:+ String "," ""). rewrite Split_app by done.
    simpl strings.Split. split; [simpl; lia|]. split; [done|].
    change [p; ""] with (p :: [] ++ [""])%list. rewrite parseTopics_snoc.
    change (topicName "") with "". change (topicTokens "") with (@nil string).
    change (parseTopics [p]) with (∅ : gmap string (list string)).
    rewrite insert_empty, Hone. done.
  - intros defs. reflexivity.
  - intros i p t Hp Ht Ht' parts. subst parts. split; [|done].
    change (p +:+ "," +:+ t +:+ ":") with (p +:+ String "," (t +:+ String ":" "")).
    rewrite Split_app by done. rewrite Split_none.
    + change [p; t +:+ String ":" ""] with (p :: [] ++ [t +:+ String ":" ""])%list.
      rewrite parseTopics_snoc. unfold topicName, topicTokens.
      rewrite Split_app by done. simpl.
      change (parseTopics [p]) with (∅ : gmap string (list string)).
      rewrite insert_empty, Hone. done.
    + rewrite Count_app. simpl. rewrite Ht. done.
Qed.

End empty_names.

Lemma empty_names_pass_witness :
  requests (map_to_list (parseTopics (strings.Split "p," ","))) = [ReqTopic ""] ∧
  requests (map_to_list (parseTopics (strings.Split "p,t:" ","))) =
    [ReqTopic "t"; ReqSubscription "t" ""].
Proof.
  destruct (empty_names_pass (λ _ m, map_to_list m) (λ _ m, Permutation_refl (map_to_list m)))
    as (H1 & _ & H2).
  split.
  - apply (H1 1 "p"). reflexivity.
  - apply (H2 1 "p" "t"); reflexivity.
Defined.

(** ** More of the decoder *)

(** X5: the decoder looks at the first two parts only: what follows a
    second ['+'] changes nothing; and a second part that is empty after
    trimming asks for a pull subscription, as no second part does. *)
Theorem decoder_second_part :
  (∀ a b c, strings.Count a "+" = O → strings.Count b "+" = O →
     decodeSubscription (a +:+ String "+" (b +:+ String "+" c)) =
     decodeSubscription (a +:+ String "+" b)) ∧
  (∀ t a b, strings.Count a "+" = O →
     strings.TrimSpace (nth 0 (strings.Split b "+") "") = "" →
     (decodeSubscription (a +:+ String "+" b)).2 = "" ∧
     subscriptionConfig t (a +:+ String "+" b) = pubsub.pull t).
Proof.
  split.
  - intros a b c Ha Hb. rewrite !decodeSubscription_push by done.
    rewrite Split_app, (Split_none b) by done. reflexivity.
  - intros t a b Ha Hb.
    assert (Hd : (decodeSubscription (a +:+ String "+" b)).2 = "").
    { rewrite decodeSubscription_push by done. simpl. by rewrite Hb. }
    split; [done|]. unfold subscriptionConfig. rewrite Hd. done.
Qed.

Lemma decoder_second_part_witness :
  decodeSubscription "s+h|1+x" = decodeSubscription "s+h|1" ∧
  subscriptionConfig "t" "s+ " = pubsub.pull "t".
Proof.
  destruct decoder_second_part as (H1 & H2). split.
  - apply (H1 "s" "h|1" "x"); reflexivity.
  - apply (H2 "t" "s" " "); reflexivity.
Defined.

(** ** The calls of [create] *)

Section create_calls.

Context {S : Type} `{!pubsub.Client S}.
Variable Sprintf : string → list operand → string.
Variable proc : process.

Lemma quiet_ret {A} dbg (a : A) : quiet dbg (@ret S A a).
Proof. intros w. by exists a, w. Qed.

Lemma quiet_bind {A B} dbg (m : M S A) (k : A → M S B) :
  quiet dbg m → (∀ a, quiet dbg (k a)) → quiet dbg (bind m k).
Proof.
  intros Hm Hk w. destruct (Hm w) as (a & w1 & Hw1 & He1 & Ho1).
  destruct (Hk a w1) as (b & w2 & Hw2 & He2 & Ho2).
  exists b, w2. rewrite (bind_Return _ _ _ _ _ Hw1).
  split; [done|]. split; [by rewrite He2|].
  intros Hdbg. by rewrite Ho2, Ho1.
Qed.

Lemma quiet_invoke {A} dbg c (op : S → A * S) : quiet dbg (invoke c op).
Proof.
  intros w. unfold invoke. destruct (op w.(service)) as [a σ]. by eexists _, _.
Qed.

Lemma quiet_debugf format params :
  quiet proc.(debug) (@debugf S Sprintf proc format params).
Proof.
  intros w. unfold debugf. destruct proc.(debug) eqn:Hdbg.
  - eexists _, _. split; [reflexivity|]. split; [done|]. done.
  - by exists tt, w.
Qed.

Lemma quiet_for_range_err {A} dbg (l : list A) (body : A → M S (option error)) :
  (∀ x, quiet dbg (body x)) → quiet dbg (for_range_err l body).
Proof.
  intros Hbody. induction l as [|x l IH]; simpl.
  - apply quiet_ret.
  - apply quiet_bind; [apply Hbody|]. intros [err|]; [apply quiet_ret|apply IH].
Qed.

Lemma quiet_create projectID topics :
  quiet proc.(debug) (create Sprintf proc projectID topics).
Proof.
  unfold create. apply quiet_bind; [apply quiet_invoke|].
  intros [err|]; [apply quiet_ret|].
  apply quiet_bind; [apply quiet_debugf|]. intros _.
  apply quiet_bind.
  - apply quiet_for_range_err. intros [topicID subscriptions]. unfold createTopic.
    apply quiet_bind; [apply quiet_debugf|]. intros _.
    apply quiet_bind; [apply quiet_invoke|]. intros [err|]; [apply quiet_ret|].
    apply quiet_for_range_err. intros subscription. unfold createSubscription.
    destruct (decodeSubscription subscription) as [subscriptionID pushEndpoint].
    case_decide.
    + apply quiet_bind; [apply quiet_debugf|]. intros _.
      apply quiet_bind; [apply quiet_invoke|]. intros [err|]; apply quiet_ret.
    + apply quiet_bind; [apply quiet_debugf|]. intros _.
      apply quiet_bind; [apply quiet_invoke|]. intros [err|]; apply quiet_ret.
  - intros err. apply quiet_bind; [apply quiet_invoke|]. intros _. apply quiet_ret.
Qed.

Lemma createCall_callOf projectID r : createCall projectID (callOf projectID r).
Proof. by destruct r. Qed.

(** The calls sent are the calls of the first requests of the plan. *)
Lemma serve_prefix projectID rs σ :
  (serve Sprintf projectID rs σ).1.1 `prefix_of` (callOf projectID <$> rs).
Proof.
  revert σ. induction rs as [|r rs IH]; intros σ; simpl; [done|].
  destruct (answerOf projectID r σ) as [[err|] σ1]; simpl.
  - apply prefix_cons, prefix_nil.
  - specialize (IH σ1). destruct (serve Sprintf projectID rs σ1) as [[cs res] σ2].
    simpl in *. by apply prefix_cons.
Qed.

(** The calls of [create], by cases on whether the client was made. *)
Lemma create_calls_cases projectID topics (w w' : world S) res :
  create Sprintf proc projectID topics w = (Return res, w') →
  (∃ err σ0, pubsub.NewClient projectID w.(service) = (Some err, σ0) ∧
             is_Some res ∧
             w'.(calls) = (w.(calls) ++ [CallNewClient projectID])%list) ∨
  ∃ σ0 cs, pubsub.NewClient projectID w.(service) = (None, σ0) ∧
        w'.(calls) =
          (w.(calls) ++ CallNewClient projectID :: cs ++ [CallClose projectID])%list ∧
        Forall (createCall projectID) cs ∧
        cs `prefix_of` (callOf projectID <$> requests topics) ∧
        (res = None → cs = callOf projectID <$> requests topics).
Proof.
  intros Hcreate.
  pose proof (create_serve Sprintf proc projectID topics w) as Hserve.
  destruct (pubsub.NewClient projectID w.(service)) as [[err|] σ0].
  - left. rewrite Hcreate in Hserve. injection Hserve as -> ->.
    exists err, σ0. by split.
  - right. pose proof (serve_prefix projectID (requests topics) σ0) as Hprefix.
    destruct (serve Sprintf projectID (requests topics) σ0) as [[cs res'] σ] eqn:Hrs.
    destruct Hserve as (w'' & Hw'' & _ & Hcs & _).
    rewrite Hcreate in Hw''. injection Hw'' as <- <-.
    exists σ0, cs. split; [done|]. split; [done|]. simpl in Hprefix.
    split; [|split; [done|]].
    + destruct Hprefix as [rest Hrest].
      assert (Hall : Forall (createCall projectID) (callOf projectID <$> requests topics)).
      { apply Forall_fmap, Forall_forall. intros r _. apply createCall_callOf. }
      rewrite Hrest in Hall. by apply Forall_app in Hall as [Hall _].
    + intros ->. by apply (serve_None _ _ _ _ _ _ Hrs).
Qed.

(** X6: [create] reports a failure through its result only: it always
    returns, writes nothing to standard error and, without [-debug], nothing
    to standard output.  Its calls are the call that makes the client and,
    when the client was made, creation calls for the project, which are the
    first calls of the plan and all of them when no error is returned, and
    last the call that closes the client. *)
Theorem create_shape projectID topics (w : world S) :
  ∃ res w',
    create Sprintf proc projectID topics w = (Return res, w') ∧
    w'.(stderr) = w.(stderr) ∧
    (proc.(debug) = false → w'.(stdout) = w.(stdout)) ∧
    ((∃ err σ0, pubsub.NewClient projectID w.(service) = (Some err, σ0) ∧
                is_Some res ∧
                w'.(calls) = (w.(calls) ++ [CallNewClient projectID])%list) ∨
     ∃ σ0 cs, pubsub.NewClient projectID w.(service) = (None, σ0) ∧
           w'.(calls) =
             (w.(calls) ++ CallNewClient projectID :: cs ++ [CallClose projectID])%list ∧
           Forall (createCall projectID) cs ∧
           cs `prefix_of` (callOf projectID <$> requests topics) ∧
           (res = None → cs = callOf projectID <$> requests topics)).
Proof.
  destruct (quiet_create projectID topics w) as (res & w' & Hcreate & He & Ho).
  exists res, w'. split; [done|]. split; [done|]. split; [done|].
  by apply create_calls_cases.
Qed.

End create_calls.

(** ** A topic comes before its subscriptions *)

Lemma subscriptionConfig_Topic topicID subscription :
  (subscriptionConfig topicID subscription).(pubsub.Topic) = topicID.
Proof. unfold subscriptionConfig. by case_decide. Qed.

Lemma requests_cons entry rest :
  requests (entry :: rest) =
  ((ReqTopic entry.1 :: (ReqSubscription entry.1 <$> entry.2)) ++ requests rest)%list.
Proof. reflexivity. Qed.

(** In the plan a subscription request comes after the request for its
    topic. *)
Lemma requests_ordered topics : ∀ k t s,
  requests topics !! k = Some (ReqSubscription t s) →
  ∃ j, (j < k)%nat ∧ requests topics !! j = Some (ReqTopic t).
Proof.
  induction topics as [|[topicID subscriptions] rest IH]; intros k t s; [done|].
  rewrite requests_cons. cbn [fst snd].
  set (block := ReqTopic topicID :: (ReqSubscription topicID <$> subscriptions)).
  destruct (decide (k < List.length block)%nat) as [Hk|Hk].
  - rewrite lookup_app_l by done. destruct k as [|k]; [done|].
    subst block.
    change ((ReqSubscription topicID <$> subscriptions) !! k = Some (ReqSubscription t s) →
            ∃ j, (j < Datatypes.S k)%nat ∧
                 (ReqTopic topicID :: (ReqSubscription topicID <$> subscriptions) ++
                  requests rest)%list !! j = Some (ReqTopic t)).
    rewrite list_lookup_fmap.
    destruct (subscriptions !! k); [|done]. intros [= <- _].
    exists O. split; [lia|done].
  - rewrite lookup_app_r by lia. intros Hlook.
    destruct (IH _ _ _ Hlook) as (j & Hj & Hjlook).
    exists (List.length block + j)%nat. split; [lia|].
    rewrite lookup_app_r by lia. by replace (List.length block + j - List.length block)%nat
      with j by lia.
Qed.

Section create_order.

Context {S : Type} `{!pubsub.Client S}.
Variable Sprintf : string → list operand → string.
Variable proc : process.

(** X7: among the calls [create] makes, a call that creates a subscription
    comes after the call that creates the topic the subscription is on. *)
Theorem topic_before_subscription projectID topics (w w' : world S) res k id cfg :
  create Sprintf proc projectID topics w = (Return res, w') →
  (List.length w.(calls) ≤ k)%nat →
  w'.(calls) !! k = Some (CallCreateSubscription projectID id cfg) →
  ∃ j, (List.length w.(calls) ≤ j < k)%nat ∧
       w'.(calls) !! j = Some (CallCreateTopic projectID cfg.(pubsub.Topic)).
Proof.
  intros Hcreate Hk Hlook.
  destruct (create_calls_cases Sprintf proc _ _ _ _ _ Hcreate)
    as [(err & σ0 & _ & _ & Hcalls)|(σ0 & cs & _ & Hcalls & _ & [rest Hrest] & _)].
  { rewrite Hcalls, lookup_app_r in Hlook by done.
    destruct (k - List.length w.(calls))%nat as [|[|n]]; done. }
  rewrite Hcalls in Hlook |- *. rewrite lookup_app_r in Hlook by done.
  destruct (k - List.length w.(calls))%nat as [|n] eqn:Hn; [done|].
  change ((cs ++ [CallClose projectID])%list !! n =
          Some (CallCreateSubscription projectID id cfg)) in Hlook.
  destruct (decide (n < List.length cs)%nat) as [Hlt|Hge].
  2:{ rewrite lookup_app_r in Hlook by lia.
      destruct (n - List.length cs)%nat as [|[|m]]; done. }
  rewrite lookup_app_l in Hlook by done.
  assert (Hplan : (callOf projectID <$> requests topics) !! n =
                  Some (CallCreateSubscription projectID id cfg)).
  { rewrite Hrest. by rewrite lookup_app_l. }
  rewrite list_lookup_fmap in Hplan.
  destruct (requests topics !! n) as [[t|t s]|] eqn:Hreq; [done| |done].
  injection Hplan as <- <-. rewrite subscriptionConfig_Topic.
  destruct (requests_ordered _ _ _ _ Hreq) as (j & Hj & Hjlook).
  exists (List.length w.(calls) + Datatypes.S j)%nat. split; [lia|].
  rewrite lookup_app_r by lia.
  replace (List.length w.(calls) + Datatypes.S j - List.length w.(calls))%nat
    with (Datatypes.S j) by lia.
  change ((cs ++ [CallClose projectID])%list !! j = Some (CallCreateTopic projectID t)).
  rewrite lookup_app_l by lia.
  assert (Hj' : (callOf projectID <$> requests topics) !! j =
                Some (CallCreateTopic projectID t)).
  { rewrite list_lookup_fmap, Hjlook. done. }
  rewrite Hrest, lookup_app_l in Hj' by lia. done.
Qed.

End create_order.

Lemma topic_before_subscription_witness :
  ∃ j, (0 ≤ j < 2)%nat ∧
       (create render.Sprintf (pubsubc [] false) "p" [("t", ["a"])]
          (start (emulator.fresh []))).2.(calls) !! j = Some (CallCreateTopic "p" "t").
Proof.
  apply (topic_before_subscription render.Sprintf (pubsubc [] false) "p" [("t", ["a"])]
           (start (emulator.fresh []))
           (create render.Sprintf (pubsubc [] false) "p" [("t", ["a"])]
              (start (emulator.fresh []))).2
           None 2%nat "a" (pubsub.pull "t")).
  - vm_compute. reflexivity.
  - simpl. lia.
  - vm_compute. reflexivity.
Defined.

(** ** The calls of [displayResult] *)

Section report_shape.

Context {S : Type} `{!pubsub.Client S}.
Variable Sprintf : string → list operand → string.
Variable proc : process.

Lemma reports_ret {A} p (a : A) : reports p (@ret S A a).
Proof. intros w. exists []. by rewrite app_nil_r. Qed.

Lemma reports_bind {A B} p (m : M S A) (k : A → M S B) :
  reports p m → (∀ a, reports p (k a)) → reports p (bind m k).
Proof.
  intros Hm Hk w. unfold bind. destruct (Hm w) as (cs1 & Hcs1 & Hcalls1).
  destruct (m w) as [[a|code] w1]; [|by exists cs1].
  destruct (Hk a w1) as (cs2 & Hcs2 & Hcalls2).
  exists (cs1 ++ cs2)%list. split; [by apply Forall_app|].
  simpl in Hcalls1. by rewrite Hcalls2, Hcalls1, app_assoc.
Qed.

Lemma reports_invoke {A} p c (op : S → A * S) :
  reportCall p c → reports p (invoke c op).
Proof.
  intros Hc w. unfold invoke. destruct (op w.(service)) as [a σ].
  exists [c]. split; [by constructor|done].
Qed.

Lemma reports_Printf p format params : reports p (@Printf S Sprintf format params).
Proof. intros w. exists []. simpl. by rewrite app_nil_r. Qed.

Lemma reports_debugf p format params :
  reports p (@debugf S Sprintf proc format params).
Proof. unfold debugf. destruct proc.(debug); [apply reports_Printf|apply reports_ret]. Qed.

Lemma reports_fatalf {A} p format params :
  reports p (@fatalf S Sprintf proc A format params).
Proof. intros w. exists []. simpl. by rewrite app_nil_r. Qed.

Lemma reports_for_range {A} p (l : list A) (body : A → M S unit) :
  (∀ x, reports p (body x)) → reports p (for_range l body).
Proof.
  intros Hbody. induction l as [|x l IH]; simpl.
  - apply reports_ret.
  - apply reports_bind; [apply Hbody|by intros _].
Qed.

Lemma reports_displayTopic projectId topic :
  reports projectId (displayTopic Sprintf proc projectId topic).
Proof.
  unfold displayTopic, listSubscriptions. apply reports_bind.
  { apply reports_bind; [by apply reports_invoke|]. intros it. apply reports_ret. }
  intros [err|subscriptions]; [apply reports_fatalf|].
  apply reports_bind; [apply reports_debugf|]. intros _.
  unfold displaySubscriptions. apply reports_for_range. intros sub.
  apply reports_bind; [|intros _; apply reports_debugf].
  apply reports_for_range. intros sub'. unfold displaySubscription.
  apply reports_bind; [by apply reports_invoke|].
  intros [err|config]; [apply reports_fatalf|apply reports_Printf].
Qed.

(** What [displayResult] does once its client is made, up to closing it. *)
Local Abbreviation listing projectId :=
  (topics <- listTopics Sprintf projectId ;;
   match topics with
   | inl err => fatalf Sprintf proc "Failed to list topics: %s" [OStr err]
   | inr topics => for_range topics (displayTopic Sprintf proc projectId)
   end).

Lemma reports_listing projectId : reports projectId (listing projectId).
Proof.
  apply reports_bind.
  { unfold listTopics. apply reports_bind; [by apply reports_invoke|].
    intros it. apply reports_ret. }
  intros [err|topics]; [apply reports_fatalf|].
  apply reports_for_range. intros topic. apply reports_displayTopic.
Qed.

Lemma displayResult_connected projectId (w : world S) σ0 :
  pubsub.NewClient projectId w.(service) = (None, σ0) →
  displayResult Sprintf proc projectId w =
  (listing projectId ;;;
   invoke (CallClose projectId) (λ σ, (tt, pubsub.Close projectId σ)))
    (World σ0 (w.(calls) ++ [CallNewClient projectId]) w.(stdout) w.(stderr)).
Proof.
  intros Hnew. unfold displayResult, listTopics, bind, invoke. rewrite Hnew.
  cbn [fst snd service calls stdout stderr].
  destruct (pubsub.Topics projectId σ0) as [it σ1].
  destruct (collect Sprintf it.(pubsub.items) it.(pubsub.stop) []) as [err|topics].
  - reflexivity.
  - unfold ret. cbn beta iota.
    match goal with |- context [for_range topics ?body ?w1] =>
      by destruct (for_range topics body w1) as [[[]|code] w2] end.
Qed.

(** The calls of [displayResult], by cases on how it ends. *)
Lemma displayResult_calls_cases projectId (w : world S) :
  ∃ cs, Forall (reportCall projectId) cs ∧
    match displayResult Sprintf proc projectId w with
    | (Return _, w') =>
        (∃ err σ, pubsub.NewClient projectId w.(service) = (Some err, σ)) ∧
        cs = [] ∧ w'.(calls) = (w.(calls) ++ [CallNewClient projectId])%list ∨
        (∃ σ, pubsub.NewClient projectId w.(service) = (None, σ)) ∧
        w'.(calls) =
          (w.(calls) ++ CallNewClient projectId :: cs ++ [CallClose projectId])%list
    | (Exit code, w') =>
        (∃ σ, pubsub.NewClient projectId w.(service) = (None, σ)) ∧
        w'.(calls) = (w.(calls) ++ CallNewClient projectId :: cs)%list
    end.
Proof.
  destruct (pubsub.NewClient projectId w.(service)) as [[err|] σ0] eqn:Hnew.
  { exists []. split; [done|].
    rewrite (displayResult_no_client Sprintf proc _ _ _ _ Hnew). left. eauto. }
  rewrite (displayResult_connected _ _ _ Hnew).
  set (w0 := World σ0 (w.(calls) ++ [CallNewClient projectId]) w.(stdout) w.(stderr)).
  destruct (reports_listing projectId w0) as (cs & Hcs & Hcalls).
  exists cs. split; [done|]. unfold bind at 1.
  destruct (listing projectId w0) as [[[]|code] w1].
  - right. split; [by eexists|]. unfold invoke. simpl in *. rewrite Hcalls.
    by rewrite <- !app_assoc.
  - split; [by eexists|].
    simpl in Hcalls. rewrite Hcalls. simpl. by rewrite <- app_assoc.
Qed.

(** X8: [displayResult] only reads.  After the call that makes the client
    its calls list topics, list subscriptions or read a subscription config
    of the project, and none creates anything.  The client is closed, as
    the last call, exactly when the client was made and the function
    returns; when [fatalf] ends the process (with status [1]) the client is
    left open, and when the client could not be made there is no other
    call. *)
Theorem displayResult_shape projectId (w : world S) :
  ∃ cs, Forall (reportCall projectId) cs ∧
    match displayResult Sprintf proc projectId w with
    | (Return _, w') =>
        (∃ err σ, pubsub.NewClient projectId w.(service) = (Some err, σ)) ∧
        cs = [] ∧ w'.(calls) = (w.(calls) ++ [CallNewClient projectId])%list ∨
        (∃ σ, pubsub.NewClient projectId w.(service) = (None, σ)) ∧
        w'.(calls) =
          (w.(calls) ++ CallNewClient projectId :: cs ++ [CallClose projectId])%list
    | (Exit code, w') =>
        (∃ σ, pubsub.NewClient projectId w.(service) = (None, σ)) ∧
        code = 1 ∧ w'.(calls) = (w.(calls) ++ CallNewClient projectId :: cs)%list
    end.
Proof.
  pose proof (fatal_only_displayResult Sprintf proc projectId w) as Hfatal.
  destruct (displayResult_calls_cases projectId w) as (cs & Hcs & Hcases).
  exists cs. split; [done|].
  destruct (displayResult Sprintf proc projectId w) as [[[]|code] w']; [done|].
  destruct Hfatal as [-> _]. by destruct Hcases.
Qed.

End report_shape.

(** ** The [-debug] flag *)

Section debug_flag.

Context {S : Type} `{!pubsub.Client S}.
Variable Sprintf : string → list operand → string.
Variable flagDefaults : string.
Variable rangeOrder : Z → gmap string (list string) → list (string * list string).
Variable proc : process.
Variable b1 b2 : bool.

Local Abbreviation proc1 := (withDebug proc b1).
Local Abbreviation proc2 := (withDebug proc b2).

Lemma agree_ret {A} (a : A) : agree (@ret S A a) (ret a).
Proof. by intros w1 w2 Hw. Qed.

Lemma agree_bind {A B} (m1 m2 : M S A) (k1 k2 : A → M S B) :
  agree m1 m2 → (∀ a, agree (k1 a) (k2 a)) → agree (bind m1 k1) (bind m2 k2).
Proof.
  intros Hm Hk w1 w2 Hw. unfold bind. destruct (Hm w1 w2 Hw) as [Ho Hw'].
  destruct (m1 w1) as [[a1|code1] w1'], (m2 w2) as [[a2|code2] w2']; simplify_eq/=.
  - by apply Hk.
  - done.
Qed.

Lemma agree_invoke {A} c (op : S → A * S) : agree (invoke c op) (invoke c op).
Proof.
  intros w1 w2 (Hs & Hc & He). unfold invoke. rewrite Hs.
  destruct (op w2.(service)) as [a σ]. simpl. unfold same_but_stdout. simpl.
  by rewrite Hc, He.
Qed.

Lemma agree_debugf format params :
  agree (@debugf S Sprintf proc1 format params) (debugf Sprintf proc2 format params).
Proof. intros w1 w2 Hw. unfold debugf. simpl. by destruct b1, b2. Qed.

Lemma agree_Printf format params :
  agree (@Printf S Sprintf format params) (Printf Sprintf format params).
Proof. by intros w1 w2 Hw. Qed.

Lemma agree_fatalf {A} format params :
  agree (@fatalf S Sprintf proc1 A format params) (fatalf Sprintf proc2 format params).
Proof.
  intros w1 w2 (Hs & Hc & He). cbn. unfold same_but_stdout. simpl. by rewrite He.
Qed.

Lemma agree_for_range {A} (l : list A) (body1 body2 : A → M S unit) :
  (∀ x, agree (body1 x) (body2 x)) → agree (for_range l body1) (for_range l body2).
Proof.
  intros Hbody. induction l as [|x l IH]; simpl.
  - apply agree_ret.
  - apply agree_bind; [apply Hbody|by intros _].
Qed.

Lemma agree_for_range_err {A} (l : list A) (body1 body2 : A → M S (option error)) :
  (∀ x, agree (body1 x) (body2 x)) →
  agree (for_range_err l body1) (for_range_err l body2).
Proof.
  intros Hbody. induction l as [|x l IH]; simpl.
  - apply agree_ret.
  - apply agree_bind; [apply Hbody|]. intros [err|]; [apply agree_ret|apply IH].
Qed.

Lemma agree_create projectID topics :
  agree (create Sprintf proc1 projectID topics) (create Sprintf proc2 projectID topics).
Proof.
  unfold create. apply agree_bind; [apply agree_invoke|].
  intros [err|]; [apply agree_ret|].
  apply agree_bind; [apply agree_debugf|]. intros _.
  apply agree_bind.
  - apply agree_for_range_err. intros [topicID subscriptions]. unfold createTopic.
    apply agree_bind; [apply agree_debugf|]. intros _.
    apply agree_bind; [apply agree_invoke|]. intros [err|]; [apply agree_ret|].
    apply agree_for_range_err. intros subscription. unfold createSubscription.
    destruct (decodeSubscription subscription) as [subscriptionID pushEndpoint].
    case_decide.
    + apply agree_bind; [apply agree_debugf|]. intros _.
      apply agree_bind; [apply agree_invoke|]. intros [err|]; apply agree_ret.
    + apply agree_bind; [apply agree_debugf|]. intros _.
      apply agree_bind; [apply agree_invoke|]. intros [err|]; apply agree_ret.
  - intros err. apply agree_bind; [apply agree_invoke|]. intros _. apply agree_ret.
Qed.

Lemma agree_displayResult projectId :
  agree (displayResult Sprintf proc1 projectId) (displayResult Sprintf proc2 projectId).
Proof.
  unfold displayResult. apply agree_bind; [apply agree_invoke|].
  intros [err|]; [apply agree_ret|].
  apply agree_bind.
  { unfold listTopics. apply agree_bind; [apply agree_invoke|].
    intros it. apply agree_ret. }
  intros [err|topics]; [apply agree_fatalf|].
  apply agree_bind; [|intros _; apply agree_invoke].
  apply agree_for_range. intros topic. unfold displayTopic.
  apply agree_bind.
  { unfold listSubscriptions. apply agree_bind; [apply agree_invoke|].
    intros it. apply agree_ret. }
  intros [err|subscriptions]; [apply agree_fatalf|].
  apply agree_bind; [apply agree_debugf|]. intros _.
  unfold displaySubscriptions. apply agree_for_range. intros sub.
  apply agree_bind; [|intros _; apply agree_debugf].
  apply agree_for_range. intros sub'. unfold displaySubscription.
  apply agree_bind; [apply agree_invoke|].
  intros [err|config]; [apply agree_fatalf|apply agree_Printf].
Qed.

Lemma agree_project i env :
  agree (project Sprintf rangeOrder proc1 i env) (project Sprintf rangeOrder proc2 i env).
Proof.
  unfold project. apply agree_bind.
  { case_decide; [apply agree_fatalf|apply agree_ret]. }
  intros _. apply agree_bind; [apply agree_create|].
  intros err. apply agree_bind; [|intros _; apply agree_displayResult].
  destruct err; [apply agree_fatalf|apply agree_ret].
Qed.

(** X9: the [-debug] flag changes standard output only.  Started with or
    without it in worlds that differ at most in standard output, the loop
    of [main] ends in the same way (the same return or exit status, or out
    of fuel alike), after the same calls, with the service in the same
    state and the same text on standard error. *)
Theorem debug_only_prints fuel : ∀ i (w1 w2 : world S),
  same_but_stdout w1 w2 →
  match loop Sprintf flagDefaults rangeOrder proc1 fuel i w1,
        loop Sprintf flagDefaults rangeOrder proc2 fuel i w2 with
  | Some (o1, w1'), Some (o2, w2') => o1 = o2 ∧ same_but_stdout w1' w2'
  | None, None => True
  | _, _ => False
  end.
Proof.
  induction fuel as [|fuel IH]; intros i w1 w2 Hw; [done|].
  cbn [loop]. cbn [environ withDebug]. case_decide as Henv.
  - case_decide; [|done]. cbn. destruct Hw as (Hs & Hc & He).
    unfold same_but_stdout. simpl. by rewrite He.
  - destruct (agree_project i (Getenv proc.(environ) (currentEnv Sprintf i)) w1 w2 Hw)
      as [Ho Hw'].
    destruct (project Sprintf rangeOrder proc1 i _ w1) as [[[]|code1] w1'],
             (project Sprintf rangeOrder proc2 i _ w2) as [[[]|code2] w2'];
      simplify_eq/=; [by apply IH|done].
Qed.

End debug_flag.

Lemma debug_only_prints_witness :
  let proc := pubsubc [("PUBSUB_PROJECT1", "p,t:a")] false in
  let w := start (emulator.fresh []) in
  match loop render.Sprintf "" (λ _ m, map_to_list m) (withDebug proc true) 10 1 w,
        loop render.Sprintf "" (λ _ m, map_to_list m) (withDebug proc false) 10 1 w with
  | Some (o1, w1'), Some (o2, w2') => o1 = o2 ∧ same_but_stdout w1' w2'
  | None, None => True
  | _, _ => False
  end.
Proof.
  intros proc w.
  apply (debug_only_prints render.Sprintf "" (λ _ m, map_to_list m) proc true false 10 1 w w).
  by unfold same_but_stdout.
Defined.

(** ** The flags [-help] and [-version] *)

Section flags_first.

Context {S : Type} `{!pubsub.Client S}.
Variable Sprintf : string → list operand → string.
Variable flagDefaults CommitHash Revision runtimeVersion : string.
Variable rangeOrder : Z → gmap string (list string) → list (string * list string).
Variable proc : process.

(** X10: with [-help] or [-version] the environment is not read and the
    service is not called: whatever the environment holds, [main] returns
    (status [0]) after printing the usage message to standard output and the
    flag defaults to standard error, or, without [-help], the version line
    to standard output; [-help] wins over [-version]. *)
Theorem flags_before_environment env' fuel fuel' (w : world S) :
  proc.(help) = true ∨ proc.(version) = true →
  main Sprintf flagDefaults CommitHash Revision runtimeVersion rangeOrder
    (withEnviron proc env') fuel w =
  main Sprintf flagDefaults CommitHash Revision runtimeVersion rangeOrder proc fuel' w ∧
  main Sprintf flagDefaults CommitHash Revision runtimeVersion rangeOrder proc fuel w =
  Some (Return tt,
        if proc.(help)
        then World w.(service) w.(calls)
               (w.(stdout) ++
                [Sprintf ("Usage: env PUBSUB_PROJECT1=" +:+ dquote
                   +:+ "project1,topic1,topic2:subscription1,topic3:subscription2+enpoint1"
                   +:+ dquote +:+ " %s" +:+ nl) [OStr proc.(Args0)]])
               (w.(stderr) ++ [flagDefaults])
        else World w.(service) w.(calls)
               (w.(stdout) ++
                [Sprintf "pubsubc - build %s (%s) running on %s"
                   [OStr Revision; OStr CommitHash; OStr runtimeVersion] +:+ nl])
               w.(stderr)).
Proof.
  intros Hflag. unfold main. cbn [help version withEnviron].
  destruct proc.(help) eqn:Hhelp; [by split|].
  destruct Hflag as [?|Hversion]; [done|]. rewrite Hversion. by split.
Qed.

End flags_first.

Lemma flags_before_environment_witness :
  let proc := {| Args0 := "pubsubc"; debug := false; help := false; version := true;
                 environ := ∅ |} in
  main render.Sprintf "" "c0ffee" "v1" "go" (λ _ m, map_to_list m)
    (withEnviron proc {["PUBSUB_PROJECT1" := "p,t"]}) 10 (start (emulator.fresh [])) =
  main render.Sprintf "" "c0ffee" "v1" "go" (λ _ m, map_to_list m) proc 0
    (start (emulator.fresh [])).
Proof.
  intros proc.
  apply (flags_before_environment render.Sprintf "" "c0ffee" "v1" "go"
           (λ _ m, map_to_list m) proc). by right.
Defined.

(** ** The loop ends *)

Section termination.

Context {S : Type} `{!pubsub.Client S}.
Variable Sprintf : string → list operand → string.
Variable flagDefaults : string.
Variable rangeOrder : Z → gmap string (list string) → list (string * list string).
Variable proc : process.

(** Different indices name different variables, as the decimal digits of
    [%d] do. *)
Hypothesis currentEnv_inj : ∀ i j, currentEnv Sprintf i = currentEnv Sprintf j → i = j.

Local Abbreviation getenv i := (Getenv proc.(environ) (currentEnv Sprintf i)).

(** No more variables are set in a row than the environment holds. *)
Lemma set_in_a_row (k : nat) :
  (∀ j, 1 ≤ j < 1 + Z.of_nat k → getenv j ≠ "") → (k ≤ size proc.(environ))%nat.
Proof.
  intros Hset.
  set (keys := (λ j : nat, currentEnv Sprintf (1 + Z.of_nat j)) <$> seq 0 k).
  assert (Hnodup : NoDup keys).
  { apply NoDup_fmap_2; [|apply NoDup_seq].
    intros j1 j2 Hj. apply currentEnv_inj in Hj. lia. }
  assert (Hsub : list_to_set keys ⊆ dom proc.(environ)).
  { intros key [j [-> Hj%elem_of_seq]]%elem_of_list_to_set%list_elem_of_fmap.
    apply elem_of_dom. specialize (Hset (1 + Z.of_nat j)). unfold Getenv in Hset.
    destruct (proc.(environ) !! currentEnv Sprintf (1 + Z.of_nat j)); [done|].
    exfalso. apply Hset; [lia|done]. }
  apply subseteq_size in Hsub.
  rewrite size_list_to_set, size_dom in Hsub by done.
  subst keys. by rewrite length_fmap, length_seq in Hsub.
Qed.

Lemma first_missing (m : nat) :
  (∀ j, 1 ≤ j < 1 + Z.of_nat m → getenv j ≠ "") ∨
  ∃ n : nat, (n < m)%nat ∧ (∀ j, 1 ≤ j < 1 + Z.of_nat n → getenv j ≠ "") ∧
             getenv (1 + Z.of_nat n) = "".
Proof.
  induction m as [|m [Hset|(n & Hn & Hset & Hmissing)]].
  - left. intros j Hj. lia.
  - destruct (decide (getenv (1 + Z.of_nat m) = "")) as [Hm|Hm].
    + right. exists m. split; [lia|done].
    + left. intros j Hj. destruct (decide (j = 1 + Z.of_nat m)) as [->|Hne]; [done|].
      apply Hset. lia.
  - right. exists n. split; [lia|done].
Qed.

(** X12: the loop of [main] ends: with more turns of fuel than the
    environment has variables it has returned or exited, as the numbered
    variables that are set in a row are at most as many as the variables of
    the environment. *)
Theorem loop_ends fuel (w : world S) :
  (size proc.(environ) < fuel)%nat →
  ∃ n : nat, (n ≤ size proc.(environ))%nat ∧
             getenv (1 + Z.of_nat n) = "" ∧
             is_Some (loop Sprintf flagDefaults rangeOrder proc fuel 1 w).
Proof.
  intros Hfuel.
  destruct (first_missing (Datatypes.S (size proc.(environ))))
    as [Hset|(n & Hn & Hset & Hmissing)].
  { apply set_in_a_row in Hset. lia. }
  exists n. split; [lia|]. split; [done|].
  destruct n as [|n].
  - destruct fuel as [|fuel]; [lia|].
    rewrite (loop_missing Sprintf flagDefaults rangeOrder proc fuel 1 w Hmissing). done.
  - rewrite (loop_countFrom Sprintf flagDefaults rangeOrder proc (Datatypes.S n) 1 fuel w);
      [done|lia|done|done|by right|lia].
Qed.

End termination.

Lemma append_empty_r s : s +:+ "" = s.
Proof.
  induction s as [|c s IH]; [done|].
  change (String c (s +:+ "") = String c s). by rewrite IH.
Qed.

(** The renderer names different variables for different indices. *)
Lemma render_currentEnv_inj i j :
  currentEnv render.Sprintf i = currentEnv render.Sprintf j → i = j.
Proof.
  unfold currentEnv. cbn [render.Sprintf render.operandText].
  intros Heq. simplify_eq. rewrite !append_empty_r in Heq.
  by apply (inj pretty) in Heq.
Qed.

Lemma loop_ends_witness :
  let proc := pubsubc [("PUBSUB_PROJECT1", "p,t"); ("PUBSUB_PROJECT3", "q,u")] false in
  ∃ n : nat, (n ≤ size proc.(environ))%nat ∧
             Getenv proc.(environ) (currentEnv render.Sprintf (1 + Z.of_nat n)) = "" ∧
             is_Some (loop render.Sprintf "" (λ _ m, map_to_list m) proc 3 1
                        (start (emulator.fresh []))).
Proof.
  intros proc.
  apply (loop_ends render.Sprintf "" (λ _ m, map_to_list m) proc render_currentEnv_inj).
  vm_compute. lia.
Defined.

(** ** Trimming *)

Section trimFront_facts.

Variable sp2 : ascii → ascii → bool.
Variable sp3 : ascii → ascii → ascii → bool.

(** Bytes that do not start with a white-space rune are left as they are. *)
Lemma trimFront_fixed l : headSpace sp2 sp3 l = false → strings.trimFront sp2 sp3 l = l.
Proof.
  destruct l as [|c1 [|c2 [|c3 r]]]; simpl; intros Hhead;
    repeat (apply orb_false_elim in Hhead as [? Hhead]);
    repeat match goal with Heq : _ = false |- _ => rewrite Heq; clear Heq end; done.
Qed.

(** What is left starts with no white-space rune and is an end of the bytes. *)
Lemma trimFront_spec n : ∀ l, (List.length l ≤ n)%nat →
  headSpace sp2 sp3 (strings.trimFront sp2 sp3 l) = false ∧
  ∃ k, strings.trimFront sp2 sp3 l = drop k l.
Proof.
  induction n as [|n IH]; intros l Hlen.
  { destruct l; [|simpl in Hlen; lia]. split; [done|by exists O]. }
  destruct l as [|c1 r1]; [split; [done|by exists O]|].
  simpl in Hlen. simpl strings.trimFront.
  destruct (strings.asciiSpace c1) eqn:H1.
  { destruct (IH r1) as [Hhead [k Hk]]; [lia|]. split; [done|].
    exists (Datatypes.S k). by rewrite Hk. }
  destruct r1 as [|c2 r2].
  { split; [simpl; by rewrite H1|by exists O]. }
  simpl in Hlen. destruct (sp2 c1 c2) eqn:H2.
  { destruct (IH r2) as [Hhead [k Hk]]; [lia|]. split; [done|].
    exists (Datatypes.S (Datatypes.S k)). by rewrite Hk. }
  destruct r2 as [|c3 r3].
  { split; [simpl; by rewrite H1, H2|by exists O]. }
  simpl in Hlen. destruct (sp3 c1 c2 c3) eqn:H3.
  { destruct (IH r3) as [Hhead [k Hk]]; [lia|]. split; [done|].
    exists (Datatypes.S (Datatypes.S (Datatypes.S k))). by rewrite Hk. }
  split; [simpl; by rewrite H1, H2, H3|by exists O].
Qed.

Lemma trimFront_headSpace l : headSpace sp2 sp3 (strings.trimFront sp2 sp3 l) = false.
Proof. by apply (trimFront_spec (List.length l) l). Qed.

Lemma trimFront_drop l : ∃ k, strings.trimFront sp2 sp3 l = drop k l.
Proof. by apply (trimFront_spec (List.length l) l). Qed.

Lemma trimFront_idempotent l :
  strings.trimFront sp2 sp3 (strings.trimFront sp2 sp3 l) = strings.trimFront sp2 sp3 l.
Proof. apply trimFront_fixed, trimFront_headSpace. Qed.

(** A beginning of bytes that start with no white-space rune starts with
    none either. *)
Lemma headSpace_take l k :
  headSpace sp2 sp3 l = false → headSpace sp2 sp3 (take k l) = false.
Proof.
  destruct l as [|c1 [|c2 [|c3 r]]], k as [|[|[|k]]]; simpl; intros Hhead;
    repeat (apply orb_false_elim in Hhead as [? Hhead]);
    repeat match goal with Heq : _ = false |- _ => rewrite Heq; clear Heq end; done.
Qed.

End trimFront_facts.

Lemma rev_drop_rev {A} (l : list A) k : rev (drop k (rev l)) = take (List.length l - k) l.
Proof. by rewrite skipn_rev, rev_involutive. Qed.

(** The trimmed bytes are a fixed point of both trimmings. *)
Lemma trimmed_fixed l :
  let t := strings.TrimRightSpace (strings.TrimLeftSpace l) in
  strings.TrimLeftSpace t = t ∧ strings.TrimRightSpace t = t ∧
  headSpace strings.space2 strings.space3 t = false ∧
  headSpace (λ c2 c1, strings.space2 c1 c2) (λ c3 c2 c1, strings.space3 c1 c2 c3) (rev t)
    = false.
Proof.
  intros t. subst t. unfold strings.TrimRightSpace, strings.TrimLeftSpace.
  set (m := strings.trimFront strings.space2 strings.space3 l).
  set (sp2' := λ c2 c1, strings.space2 c1 c2).
  set (sp3' := λ c3 c2 c1, strings.space3 c1 c2 c3).
  assert (Hm : headSpace strings.space2 strings.space3 m = false)
    by apply trimFront_headSpace.
  assert (Hhead : headSpace strings.space2 strings.space3
                    (rev (strings.trimFront sp2' sp3' (rev m))) = false).
  { destruct (trimFront_drop sp2' sp3' (rev m)) as [k ->].
    rewrite rev_drop_rev. by apply headSpace_take. }
  split; [by apply trimFront_fixed|].
  rewrite rev_involutive, trimFront_idempotent. split; [done|]. split; [done|].
  apply trimFront_headSpace.
Qed.

(** X11: [strings.TrimSpace], as [create] uses it, gives a string that
    trimming leaves as it is and that has no ASCII white space as its first
    or last byte; so the subscription id that the decoder hands on is
    trimmed. *)
Theorem TrimSpace_trims :
  (∀ s, strings.TrimSpace (strings.TrimSpace s) = strings.TrimSpace s) ∧
  (∀ s c r, strings.TrimSpace s = String c r → strings.asciiSpace c = false) ∧
  (∀ s r c, strings.TrimSpace s = r +:+ String c "" → strings.asciiSpace c = false) ∧
  (∀ tok, strings.TrimSpace (decodeSubscription tok).1 = (decodeSubscription tok).1).
Proof.
  assert (Hidem : ∀ s, strings.TrimSpace (strings.TrimSpace s) = strings.TrimSpace s).
  { intros s. unfold strings.TrimSpace. rewrite list_ascii_of_string_of_list_ascii.
    destruct (trimmed_fixed (list_ascii_of_string s)) as (HL & HR & _).
    by rewrite HL, HR. }
  split; [done|]. split; [|split].
  - intros s c r Heq. unfold strings.TrimSpace in Heq.
    destruct (trimmed_fixed (list_ascii_of_string s)) as (_ & _ & Hhead & _).
    apply (f_equal list_ascii_of_string) in Heq.
    rewrite list_ascii_of_string_of_list_ascii in Heq. rewrite Heq in Hhead.
    simpl in Hhead. by apply orb_false_elim in Hhead as [? _].
  - intros s r c Heq. unfold strings.TrimSpace in Heq.
    destruct (trimmed_fixed (list_ascii_of_string s)) as (_ & _ & _ & Hlast).
    apply (f_equal list_ascii_of_string) in Heq.
    rewrite list_ascii_of_string_of_list_ascii in Heq. rewrite Heq in Hlast.
    assert (Hsnoc : ∀ r, list_ascii_of_string (r +:+ String c "") =
                         (list_ascii_of_string r ++ [c])%list).
    { clear. induction r as [|x r IH]; [done|].
      change (x :: list_ascii_of_string (r +:+ String c "") =
              x :: (list_ascii_of_string r ++ [c])%list). by rewrite IH. }
    rewrite Hsnoc, rev_app_distr in Hlast. simpl in Hlast.
    by apply orb_false_elim in Hlast as [? _].
  - intros tok. unfold decodeSubscription. simpl. apply Hidem.
Qed.

Lemma TrimSpace_trims_witness :
  strings.asciiSpace "a" = false ∧ strings.asciiSpace "b" = false.
Proof.
  destruct TrimSpace_trims as (_ & Hfirst & Hlast & _). split.
  - apply (Hfirst " a b " "a"%char " b"). reflexivity.
  - apply (Hlast " a b " "a " "b"%char). reflexivity.
Defined.

Lemma names_without_separators_witness :
  strings.Count "t" "," = O ∧ strings.Count "t" ":" = O ∧
  Forall (λ tok, strings.Count tok "," = O ∧ strings.Count tok ":" = O) ["s1"; "s2+h|1"].
Proof.
  apply (proj2 (names_without_separators "p,t:s1:s2+h|1") "t" ["s1"; "s2+h|1"]).
  vm_compute. reflexivity.
Defined.

(** ** Exit status and standard error; the project of a turn *)

Section turn_facts.

Context {S : Type} `{!pubsub.Client S}.
Variable Sprintf : string → list operand → string.
Variable flagDefaults : string.
Variable rangeOrder : Z → gmap string (list string) → list (string * list string).
Variable proc : process.

(** X13: however the loop of [main] ends, the exit status and standard
    error go together: a loop that returns (status [0]) has written nothing
    to standard error, and a loop that exits does so with status [1] after
    writing exactly one text to standard error. *)
Theorem status_and_stderr fuel : ∀ i (w w' : world S) o,
  loop Sprintf flagDefaults rangeOrder proc fuel i w = Some (o, w') →
  match o with
  | Return _ => w'.(stderr) = w.(stderr)
  | Exit code => code = 1 ∧ ∃ msg, w'.(stderr) = (w.(stderr) ++ [msg])%list
  end.
Proof.
  induction fuel as [|fuel IH]; intros i w w' o; [done|].
  cbn [loop]. case_decide as Henv.
  - case_decide; intros [= <- <-]; [|done]. simpl. eauto.
  - pose proof (fatal_only_project Sprintf proc rangeOrder i
                  (Getenv proc.(environ) (currentEnv Sprintf i)) w) as Hturn.
    destruct (project Sprintf rangeOrder proc i _ w) as [[[]|code] w1].
    + intros Hloop. specialize (IH _ _ _ _ Hloop). rewrite Hturn in IH. done.
    + by intros [= <- <-].
Qed.

Lemma createCall_projectOf p c : createCall p c → projectOf c = p.
Proof. by destruct c. Qed.

Lemma reportCall_projectOf p c : reportCall p c → projectOf c = p.
Proof. by destruct c. Qed.

(** X14: a turn of the loop calls the service for its own project only:
    every call it makes carries the first part of the value as project
    id. *)
Theorem turn_own_project i env (w : world S) :
  ∃ cs, (project Sprintf rangeOrder proc i env w).2.(calls) = (w.(calls) ++ cs)%list ∧
        Forall (λ c, projectOf c = nth 0 (strings.Split env ",") "") cs.
Proof.
  set (p := nth 0 (strings.Split env ",") "").
  assert (Hcreate : Forall (λ c, projectOf c = p)
                      (callOf p <$> requests (rangeOrder i (parseTopics (strings.Split env ","))))).
  { apply Forall_fmap, Forall_forall. intros r _. by destruct r. }
  destruct (decide (List.length (strings.Split env ",") < 2)%nat) as [Hlen|Hlen].
  { exists []. split; [|done]. unfold project. rewrite decide_True by done.
    simpl. by rewrite app_nil_r. }
  destruct (quiet_create Sprintf proc p
              (rangeOrder i (parseTopics (strings.Split env ","))) w)
    as (res & w1 & Hw1 & _ & _).
  pose proof (create_calls_cases Sprintf proc _ _ _ _ _ Hw1) as Hshape.
  rewrite (project_created Sprintf rangeOrder proc _ _ _ _ _ Hlen Hw1). fold p.
  assert (Hcs1 : ∃ cs1, w1.(calls) = (w.(calls) ++ cs1)%list ∧
                        Forall (λ c, projectOf c = p) cs1).
  { destruct Hshape as [(err & σ0 & _ & _ & Hcalls)|(σ0 & cs & _ & Hcalls & Hcs & _)].
    - exists [CallNewClient p]. split; [done|]. by constructor.
    - exists (CallNewClient p :: cs ++ [CallClose p])%list. split; [done|].
      constructor; [done|]. apply Forall_app. split; [|by constructor].
      eapply Forall_impl; [exact Hcs|]. intros c. apply createCall_projectOf. }
  destruct Hcs1 as (cs1 & Hcalls1 & Hcs1).
  destruct res as [err|].
  { exists cs1. by split. }
  destruct (displayResult_calls_cases Sprintf proc p w1) as (cs & Hcs & Hshape2).
  assert (Hcs' : Forall (λ c, projectOf c = p) cs).
  { eapply Forall_impl; [exact Hcs|]. intros c. apply reportCall_projectOf. }
  destruct (displayResult Sprintf proc p w1) as [[[]|code] w2]; simpl.
  - destruct Hshape2 as [(_ & _ & Hcalls2)|(_ & Hcalls2)].
    + exists (cs1 ++ [CallNewClient p])%list. rewrite Hcalls2, Hcalls1, app_assoc.
      split; [done|]. apply Forall_app. split; [done|by constructor].
    + exists (cs1 ++ CallNewClient p :: cs ++ [CallClose p])%list.
      rewrite Hcalls2, Hcalls1, app_assoc. split; [done|].
      apply Forall_app. split; [done|]. constructor; [done|].
      apply Forall_app. split; [done|by constructor].
  - destruct Hshape2 as [_ Hcalls2].
    exists (cs1 ++ CallNewClient p :: cs)%list. rewrite Hcalls2, Hcalls1, app_assoc.
    split; [done|]. apply Forall_app. split; [done|by constructor].
Qed.

End turn_facts.

Lemma status_and_stderr_witness :
  1 = 1 ∧
  ∃ msg, ["pubsubc: PUBSUB_PROJECT1: Expected at least 1 topic to be defined" +:+ nl] =
         ([] ++ [msg])%list.
Proof.
  assert (Hrun : loop render.Sprintf "" (λ _ m, map_to_list m)
                   (pubsubc [("PUBSUB_PROJECT1", "p")] false) 10 1
                   (start (emulator.fresh [])) =
                 Some (Exit 1,
                       World (emulator.fresh []) [] []
                         ["pubsubc: PUBSUB_PROJECT1: Expected at least 1 topic to be defined"
                          +:+ nl]))
    by (vm_compute; reflexivity).
  exact (status_and_stderr render.Sprintf "" (λ _ m, map_to_list m)
           (pubsubc [("PUBSUB_PROJECT1", "p")] false) 10 1 _ _ _ Hrun).
Defined.

(** ** White space around the parts of a token *)

Lemma list_ascii_of_string_app a b :
  list_ascii_of_string (a +:+ b) = (list_ascii_of_string a ++ list_ascii_of_string b)%list.
Proof.
  induction a as [|c a IH]; [done|].
  change (c :: list_ascii_of_string (a +:+ b) =
          c :: (list_ascii_of_string a ++ list_ascii_of_string b)%list).
  by rewrite IH.
Qed.

Lemma asciiSpaces_Forall s :
  asciiSpaces s = true → Forall (λ c, strings.asciiSpace c = true) (list_ascii_of_string s).
Proof.
  induction s as [|c s IH]; simpl; [by constructor|].
  intros [Hc Hs]%andb_prop. constructor; [done|by apply IH].
Qed.

(** White space is none of the separators. *)
Lemma asciiSpaces_Count s c :
  asciiSpaces s = true → strings.asciiSpace c = false → strings.Count s c = O.
Proof.
  intros Hs Hc. induction s as [|c' s IH]; simpl; [done|].
  simpl in Hs. apply andb_prop in Hs as [Hc' Hs].
  case_decide as Heq; [|by apply IH]. subst. congruence.
Qed.

Lemma asciiSpace_low c : strings.asciiSpace c = true → (nat_of_ascii c < 128)%nat.
Proof.
  unfold strings.asciiSpace. cbv zeta.
  intros [[H1 H2]%andb_prop|H]%orb_prop.
  - apply Nat.leb_le in H2. lia.
  - apply Nat.eqb_eq in H. lia.
Qed.

Lemma plainByte_spec c :
  plainByte c = true → strings.asciiSpace c = false ∧ (nat_of_ascii c < 128)%nat.
Proof.
  unfold plainByte. intros [H1 H2]%andb_prop. split.
  - by apply negb_true_iff in H1.
  - by apply Nat.ltb_lt in H2.
Qed.

Ltac eqb_false n k :=
  replace (n =? k)%nat with false by (symmetry; apply Nat.eqb_neq; lia).

(** The encodings of white space outside ASCII use bytes from [128] on. *)
Lemma space2_low c1 c2 :
  (nat_of_ascii c1 < 128)%nat ∨ (nat_of_ascii c2 < 128)%nat → strings.space2 c1 c2 = false.
Proof.
  unfold strings.space2. intros [Hlow|Hlow].
  - eqb_false (nat_of_ascii c1) 194%nat. done.
  - eqb_false (nat_of_ascii c2) 133%nat. eqb_false (nat_of_ascii c2) 160%nat.
    by rewrite andb_false_r.
Qed.

Lemma space3_low c1 c2 c3 :
  (nat_of_ascii c1 < 128)%nat ∨ (nat_of_ascii c3 < 128)%nat →
  strings.space3 c1 c2 c3 = false.
Proof.
  unfold strings.space3. cbv zeta. intros [Hlow|Hlow].
  - eqb_false (nat_of_ascii c1) 225%nat. eqb_false (nat_of_ascii c1) 226%nat.
    eqb_false (nat_of_ascii c1) 227%nat. done.
  - eqb_false (nat_of_ascii c3) 128%nat. eqb_false (nat_of_ascii c3) 168%nat.
    eqb_false (nat_of_ascii c3) 169%nat. eqb_false (nat_of_ascii c3) 175%nat.
    eqb_false (nat_of_ascii c3) 159%nat.
    replace (128 <=? nat_of_ascii c3)%nat with false
      by (symmetry; apply Nat.leb_gt; lia).
    simpl. by rewrite !andb_false_r.
Qed.

(** Bytes that start with a plain byte start with no white-space rune,
    read from either end. *)
Lemma headSpace_plain c r :
  plainByte c = true →
  headSpace strings.space2 strings.space3 (c :: r) = false ∧
  headSpace (λ c2 c1, strings.space2 c1 c2) (λ c3 c2 c1, strings.space3 c1 c2 c3) (c :: r)
    = false.
Proof.
  intros [Hspace Hlow]%plainByte_spec. split.
  - destruct r as [|c2 [|c3 r]]; simpl; rewrite Hspace; simpl;
      rewrite ?(space2_low c c2), ?(space3_low c c2 c3) by (by left); done.
  - destruct r as [|c2 [|c3 r]]; simpl; rewrite Hspace; simpl;
      rewrite ?(space2_low c2 c), ?(space3_low c3 c2 c) by (by right); done.
Qed.

Lemma trimFront_spaces sp2 sp3 pre l :
  Forall (λ c, strings.asciiSpace c = true) pre →
  strings.trimFront sp2 sp3 (pre ++ l) = strings.trimFront sp2 sp3 l.
Proof.
  induction 1 as [|c pre Hc _ IH]; [done|]. simpl. by rewrite Hc.
Qed.

(** Trimming takes ASCII white space off both ends of a string with plain
    ends. *)
Lemma TrimSpace_padded pre s post :
  asciiSpaces pre = true → asciiSpaces post = true → plainEnds s = true →
  strings.TrimSpace (pre +:+ s +:+ post) = s.
Proof.
  intros Hpre%asciiSpaces_Forall Hpost%asciiSpaces_Forall Hs.
  unfold strings.TrimSpace, strings.TrimLeftSpace, strings.TrimRightSpace.
  rewrite !list_ascii_of_string_app, trimFront_spaces by done.
  rewrite <- (string_of_list_ascii_of_string s) at 2.
  unfold plainEnds in Hs. cbv zeta in Hs.
  destruct (list_ascii_of_string s) as [|c r] eqn:Hl.
  { simpl. rewrite <- (app_nil_r (list_ascii_of_string post)).
    by rewrite trimFront_spaces. }
  destruct (rev (c :: r)) as [|d r'] eqn:Hrev.
  { apply (f_equal (@List.length ascii)) in Hrev. rewrite length_rev in Hrev. done. }
  apply andb_prop in Hs as [Hc Hd]. f_equal.
  rewrite (trimFront_fixed strings.space2 strings.space3
             ((c :: r) ++ list_ascii_of_string post))
    by apply (proj1 (headSpace_plain c (r ++ list_ascii_of_string post) Hc)).
  rewrite rev_app_distr, trimFront_spaces by (by apply Forall_rev).
  rewrite Hrev, trimFront_fixed by apply (proj2 (headSpace_plain d r' Hd)).
  by rewrite <- Hrev, rev_involutive.
Qed.

(** A token whose parts are written with ASCII white space around them. *)
Lemma decodeSubscription_padded p1 name p2 p3 endpoint p4 :
  asciiSpaces p1 = true → asciiSpaces p2 = true →
  asciiSpaces p3 = true → asciiSpaces p4 = true →
  strings.Count name "+" = O → strings.Count endpoint "+" = O →
  plainEnds name = true → plainEnds endpoint = true →
  decodeSubscription ((p1 +:+ name +:+ p2) +:+ String "+" (p3 +:+ endpoint +:+ p4)) =
  (name, strings.Replace endpoint "|" ":" 1).
Proof.
  intros H1 H2 H3 H4 Hname Hendpoint Hn He.
  assert (Hplus : strings.asciiSpace "+" = false) by done.
  rewrite decodeSubscription_push.
  2:{ rewrite !Count_app, Hname, !asciiSpaces_Count by done. done. }
  rewrite Split_none.
  2:{ rewrite !Count_app, Hendpoint, !asciiSpaces_Count by done. done. }
  simpl nth. by rewrite !TrimSpace_padded.
Qed.

(** C3: a token is split on ['+']; the trimmed first part is the
    subscription id; a second part, when there is one, is trimmed and its
    first ['|'] becomes [':'], which gives the push endpoint; without ['+']
    the push endpoint is empty.  Trimming takes the white space off both
    ends of a part, so ["name+host|port"], also when written with white
    space around the name and around the endpoint, decodes to the id [name]
    and the endpoint ["host:port"]. *)
Theorem subscription_decoder :
  (∀ tok, strings.Count tok "+" = O →
     decodeSubscription tok = (strings.TrimSpace tok, "")) ∧
  (∀ a b, strings.Count a "+" = O →
     decodeSubscription (a +:+ String "+" b) =
     (strings.TrimSpace a,
      strings.Replace (strings.TrimSpace (nth 0 (strings.Split b "+") "")) "|" ":" 1)) ∧
  (∀ h r, strings.Count h "|" = O →
     strings.Replace (h +:+ String "|" r) "|" ":" 1 = h +:+ ":" +:+ r) ∧
  (∀ name host port,
     strings.Count name "+" = O → strings.Count host "+" = O →
     strings.Count port "+" = O → strings.Count host "|" = O →
     strings.TrimSpace name = name →
     strings.TrimSpace (host +:+ "|" +:+ port) = host +:+ "|" +:+ port →
     decodeSubscription (name +:+ "+" +:+ host +:+ "|" +:+ port) =
     (name, host +:+ ":" +:+ port)) ∧
  (∀ pre s post,
     asciiSpaces pre = true → asciiSpaces post = true → plainEnds s = true →
     strings.TrimSpace (pre +:+ s +:+ post) = s) ∧
  (∀ p1 name p2 p3 host port p4,
     asciiSpaces p1 = true → asciiSpaces p2 = true →
     asciiSpaces p3 = true → asciiSpaces p4 = true →
     strings.Count name "+" = O → strings.Count host "+" = O →
     strings.Count port "+" = O → strings.Count host "|" = O →
     plainEnds name = true → plainEnds (host +:+ "|" +:+ port) = true →
     decodeSubscription
       ((p1 +:+ name +:+ p2) +:+ "+" +:+ p3 +:+ (host +:+ "|" +:+ port) +:+ p4) =
     (name, host +:+ ":" +:+ port) ∧
     decodeSubscription (p1 +:+ name +:+ p2) = (name, "")).
Proof.
  split; [exact decodeSubscription_pull|].
  split; [exact decodeSubscription_push|].
  split; [intros h r Hh; by apply Replace_first|].
  split; [|split; [exact TrimSpace_padded|]].
  - intros name host port Hn Hh Hp Hh' Hname Hhp.
    change (name +:+ "+" +:+ host +:+ "|" +:+ port)
      with (name +:+ String "+" (host +:+ "|" +:+ port)).
    rewrite decodeSubscription_push by done.
    rewrite Split_none.
    + simpl nth. rewrite Hname, Hhp.
      change (host +:+ "|" +:+ port) with (host +:+ String "|" port).
      by rewrite Replace_first.
    + change (host +:+ "|" +:+ port) with (host +:+ String "|" port).
      rewrite Count_app. simpl. rewrite Hh, Hp. done.
  - intros p1 name p2 p3 host port p4 H1 H2 H3 H4 Hn Hh Hp Hh' Hname Hhp.
    assert (Hcount : strings.Count (host +:+ "|" +:+ port) "+" = O).
    { change (host +:+ "|" +:+ port) with (host +:+ String "|" port).
      rewrite Count_app. simpl. rewrite Hh, Hp. done. }
    split.
    + change ((p1 +:+ name +:+ p2) +:+ "+" +:+ p3 +:+ (host +:+ "|" +:+ port) +:+ p4)
        with ((p1 +:+ name +:+ p2) +:+ String "+" (p3 +:+ (host +:+ "|" +:+ port) +:+ p4)).
      rewrite decodeSubscription_padded by done.
      change (host +:+ "|" +:+ port) with (host +:+ String "|" port).
      by rewrite Replace_first.
    + rewrite decodeSubscription_pull.
      * by rewrite TrimSpace_padded.
      * assert (Hplus : strings.asciiSpace "+" = false) by done.
        rewrite !Count_app, Hn, !asciiSpaces_Count by done. done.
Qed.

Lemma subscription_decoder_witness :
  decodeSubscription "name+host|port" = ("name", "host:port") ∧
  decodeSubscription "name" = ("name", "") ∧
  decodeSubscription (" name	" +:+ "+" +:+ "  " +:+ "host|port" +:+ " ") =
    ("name", "host:port") ∧
  strings.TrimSpace ("	 " +:+ "a b" +:+ "  ") = "a b".
Proof.
  destruct subscription_decoder as (H0 & _ & _ & H & Hpad & Hdec).
  split; [|split; [|split]].
  - apply (H "name" "host" "port"); reflexivity.
  - apply (H0 "name"); reflexivity.
  - apply (Hdec " " "name" "	" "  " "host" "port" " "); reflexivity.
  - apply (Hpad "	 " "a b" "  "); reflexivity.
Defined.
